(** * Verification of the astrict GLSL emitter and of CappedArray

    Shallow embedding of
    - [libs/astrict/src/ToGlsl.cpp]: the emitter that prints the astrict IR
      (a [PackFromGlsl]) back as shader source text, and
    - [filament/backend/src/vulkan/utils/CappedArray.h]: the fixed-capacity
      array of the Vulkan backend.

    The emitter only ever appends to its [std::ostringstream], so an emitting
    routine is modelled by the text it appends ([Ok text]) or by the way it
    stops ([Abort]).  The routines recurse through handles into the tables of
    the pack, which is not structural; the recursive ones take a [fuel]
    argument that bounds the call depth, and [OutOfFuel] marks a call chain
    deeper than the fuel. *)

From Stdlib Require Import Ascii String ZArith Lia.
From stdpp Require Import base option list gmap strings pretty.

Local Open Scope N_scope.

(** ** Handles

    Every handle is a struct with one integer field [id]; [0] is the
    sentinel.  The handle types are kept apart by name only. *)

Abbreviation TypeId := N (only parsing).
Abbreviation FunctionId := N (only parsing).
Abbreviation GlobalSymbolId := N (only parsing).
Abbreviation LocalSymbolId := N (only parsing).
Abbreviation RValueId := N (only parsing).
Abbreviation StatementBlockId := N (only parsing).

(** ** The IR (astrict/CommonTypes.h, astrict/GlslTypes.h) *)

(** Modelled from the spec: the enumeration [RValueOperator] is declared in
    astrict/CommonTypes.h, which is not part of the sources at hand.  Its
    members are the operators that [dumpRValueOperator] names in its
    [switch], in the order of the [switch]. *)
Inductive RValueOperator :=
  (* Unary *)
  | Negative | LogicalNot | BitwiseNot
  | PostIncrement | PostDecrement | PreIncrement | PreDecrement
  | ArrayLength
  (* Binary *)
  | Add | Sub | Mul | Div | Mod
  | RightShift | LeftShift
  | And | InclusiveOr | ExclusiveOr
  | Equal | NotEqual | LessThan | GreaterThan | LessThanEqual | GreaterThanEqual
  | Comma
  | LogicalOr | LogicalXor | LogicalAnd
  | Index
  | Assign | AddAssign | SubAssign | MulAssign | DivAssign | ModAssign
  | AndAssign | InclusiveOrAssign | ExclusiveOrAssign
  | LeftShiftAssign | RightShiftAssign
  (* Ternary *)
  | Ternary
  (* Misc *)
  | ConstructStruct.

(** Modelled from the spec: the enumeration [BranchOperator] of
    astrict/CommonTypes.h, with the ten members the [switch] of [dumpBlock]
    lists. *)
Inductive BranchOperator :=
  | Discard | TerminateInvocation | Demote | TerminateRayEXT
  | IgnoreIntersectionEXT | Return | Break | Continue | Case | Default.

(** [std::variant<RValueId, GlobalSymbolId, LocalSymbolId>] *)
Inductive ValueId :=
  | ValueRValue (rValueId : RValueId)
  | ValueGlobalSymbol (globalSymbolId : GlobalSymbolId)
  | ValueLocalSymbol (localSymbolId : LocalSymbolId).

Record Type_ := {
  type_name : string;
  type_precision : string;
  type_arraySizes : list Z;
}.

Record GlobalSymbol := { globalSymbol_name : string }.

Record LocalSymbol := {
  localSymbol_type : TypeId;
  localSymbol_name : string;
}.

(** The operator of an evaluable is a
    [std::variant<RValueOperator, FunctionId>]. *)
Inductive EvaluableOp :=
  | OpOperator (op : RValueOperator)
  | OpFunction (functionId : FunctionId).

Record EvaluableRValue := {
  evaluable_op : EvaluableOp;
  evaluable_args : list ValueId;
}.

(** Modelled from the spec: the payload of a literal is opaque to the
    emitter, which never reads it; it is kept as an integer constant. *)
Record LiteralRValue := { literal_value : Z }.

Inductive RValue :=
  | Evaluable (evaluable : EvaluableRValue)
  | Literal (literal : LiteralRValue).

Record IfStatement := {
  if_condition : ValueId;
  if_thenBlock : StatementBlockId;
  if_elseBlock : option StatementBlockId;
}.

Record SwitchStatement := {
  switch_condition : ValueId;
  switch_body : StatementBlockId;
}.

Record BranchStatement := {
  branch_op : BranchOperator;
  branch_operand : option ValueId;
}.

Record LoopStatement := {
  loop_condition : ValueId;
  loop_terminal : option RValueId;
  loop_testFirst : bool;
  loop_body : StatementBlockId;
}.

(** [std::variant<RValueId, IfStatement, SwitchStatement, BranchStatement,
    LoopStatement>] *)
Inductive Statement :=
  | StatementRValue (rValueId : RValueId)
  | StatementIf (ifStatement : IfStatement)
  | StatementSwitch (switchStatement : SwitchStatement)
  | StatementBranch (branchStatement : BranchStatement)
  | StatementLoop (loopStatement : LoopStatement).

Record FunctionParameter := {
  parameter_name : LocalSymbolId;
  parameter_type : TypeId;
}.

(** The local symbols of a function are iterated in declaration order by
    [dumpFunction], so the table is kept as an association list. *)
Record FunctionDefinition := {
  function_name : FunctionId;
  function_returnType : TypeId;
  function_parameters : list FunctionParameter;
  function_body : StatementBlockId;
  function_localSymbols : list (LocalSymbolId * LocalSymbol);
}.

Record PackFromGlsl := {
  types : gmap N Type_;
  globalSymbols : gmap N GlobalSymbol;
  rValues : gmap N RValue;
  functionNames : gmap N string;
  statementBlocks : gmap N (list Statement);
  functionDefinitions : gmap N FunctionDefinition;
  functionPrototypes : list FunctionId;
  functionDefinitionOrder : list FunctionId;
}.

(** [function.localSymbols.find(id)]: the first entry with that key. *)
Fixpoint localSymbols_find (localSymbols : list (LocalSymbolId * LocalSymbol))
    (id : LocalSymbolId) : option LocalSymbol :=
  match localSymbols with
  | [] => None
  | (k, v) :: rest => if k =? id then Some v else localSymbols_find rest id
  end.

(** ** Outcome of an emitting routine *)

(** The two ways the emitter stops early: a failed [ASSERT_PRECONDITION]
    (utils/Panic.h), which panics with its message, and the
    [std::out_of_range] that [std::unordered_map::at] throws for a key that
    is not in the table. *)
Inductive Panic :=
  | PreconditionPanic (reason : string)
  | OutOfRange.

Inductive Emitted :=
  | Ok (text : string)
  | Abort (panic : Panic)
  | OutOfFuel.

(** [out << text] *)
Definition write (text : string) : Emitted := Ok text.

(** Sequencing of two steps that append to the same stream: the second one
    runs only when the first one returned. *)
Definition andThen (first second : Emitted) : Emitted :=
  match first with
  | Ok s =>
      match second with
      | Ok t => Ok (s +:+ t)
      | stopped => stopped
      end
  | stopped => stopped
  end.

Declare Scope emit_scope.
Delimit Scope emit_scope with emit.
Notation "a ;; b" := (andThen a b)
  (at level 100, b at level 200, right associativity) : emit_scope.
Local Open Scope emit_scope.

(** [ASSERT_PRECONDITION(condition, reason)] *)
Definition ASSERT_PRECONDITION (condition : bool) (reason : string) : Emitted :=
  if condition then Ok "" else Abort (PreconditionPanic reason).

(** A range-based [for] whose body appends to the stream. *)
Fixpoint forEach {A} (body : A → Emitted) (items : list A) : Emitted :=
  match items with
  | [] => Ok ""
  | item :: rest => body item ;; forEach body rest
  end.

(** The line feed that the source writes as [\n] inside its literals. *)
Definition LF : string := String "010"%char "".

Definition kIndentAmount : string := "  ".
Definition kSpace : string := " ".

(** ** [std::string] operations used by the emitter *)

(** [s.find(c)]: the index of the first occurrence of [c], [None] standing
    for [std::string::npos]. *)
Fixpoint find (c : ascii) (s : string) : option nat :=
  match s with
  | EmptyString => None
  | String a rest =>
      if Ascii.eqb a c then Some 0%nat else S <$> find c rest
  end.

(** The first [n] characters of [s], or all of [s] when it is shorter. *)
Fixpoint take_chars (n : nat) (s : string) : string :=
  match n, s with
  | S n', String a rest => String a (take_chars n' rest)
  | _, _ => EmptyString
  end.

(** [s.substr(0, count)]: [npos] as count takes the whole string. *)
Definition substr0 (s : string) (count : option nat) : string :=
  match count with
  | Some n => take_chars n s
  | None => s
  end.

(** ** Names and types *)

Definition dumpFunctionName (pack : PackFromGlsl) (functionId : FunctionId)
    : Emitted :=
  match functionNames pack !! functionId with
  | None => Abort OutOfRange
  | Some name =>
      let indexParenthesis := find "("%char name in
      write (substr0 name indexParenthesis)
  end.

Definition dumpType (pack : PackFromGlsl) (typeId : TypeId) : Emitted :=
  ASSERT_PRECONDITION (bool_decide (is_Some (types pack !! typeId)))
    "Missing type definition" ;;
  match types pack !! typeId with
  | None => Abort OutOfRange
  | Some type =>
      (if String.eqb (type_precision type) "" then write ""
       else (write (type_precision type) ;; write " ")) ;;
      write (type_name type) ;;
      forEach (λ arraySize : Z, write "[" ;; write (pretty arraySize) ;; write "]")
        (type_arraySizes type)
  end.

(** Modelled from the spec: [rValueOperatorToString] is declared in
    astrict/DebugCommon.h, which is not part of the sources at hand; it gives
    the symbolic name of an operator, taken here to be the name of the
    enumerator. *)
Definition rValueOperatorToString (op : RValueOperator) : string :=
  match op with
  | Negative => "Negative" | LogicalNot => "LogicalNot"
  | BitwiseNot => "BitwiseNot"
  | PostIncrement => "PostIncrement" | PostDecrement => "PostDecrement"
  | PreIncrement => "PreIncrement" | PreDecrement => "PreDecrement"
  | ArrayLength => "ArrayLength"
  | Add => "Add" | Sub => "Sub" | Mul => "Mul" | Div => "Div" | Mod => "Mod"
  | RightShift => "RightShift" | LeftShift => "LeftShift"
  | And => "And" | InclusiveOr => "InclusiveOr" | ExclusiveOr => "ExclusiveOr"
  | Equal => "Equal" | NotEqual => "NotEqual"
  | LessThan => "LessThan" | GreaterThan => "GreaterThan"
  | LessThanEqual => "LessThanEqual" | GreaterThanEqual => "GreaterThanEqual"
  | Comma => "Comma"
  | LogicalOr => "LogicalOr" | LogicalXor => "LogicalXor"
  | LogicalAnd => "LogicalAnd"
  | Index => "Index"
  | Assign => "Assign" | AddAssign => "AddAssign" | SubAssign => "SubAssign"
  | MulAssign => "MulAssign" | DivAssign => "DivAssign"
  | ModAssign => "ModAssign" | AndAssign => "AndAssign"
  | InclusiveOrAssign => "InclusiveOrAssign"
  | ExclusiveOrAssign => "ExclusiveOrAssign"
  | LeftShiftAssign => "LeftShiftAssign"
  | RightShiftAssign => "RightShiftAssign"
  | Ternary => "Ternary"
  | ConstructStruct => "ConstructStruct"
  end.

(** ** Expressions

    [dumpValue] is declared ahead of its definition in the source, and the
    operator and call emitters reach it through that declaration.  Here they
    take it as the parameter [dumpValue_rec]; the knot is tied in
    [dumpRValue] below. *)

Section OperatorEmitters.

Variable dumpValue_rec : ValueId → Emitted.

(** [dumpValue(pack, function, args[i], out)].  Every use follows an
    assertion on [args.size()] that puts [i] in range. *)
Definition dumpArg (args : list ValueId) (i : nat) : Emitted :=
  match args !! i with
  | Some arg => dumpValue_rec arg
  | None => Abort OutOfRange
  end.

Definition dumpBinaryRValueOperator (op : RValueOperator)
    (args : list ValueId) (opString : string) : Emitted :=
  ASSERT_PRECONDITION (length args =? 2)%nat
    (rValueOperatorToString op +:+ " must be a binary operator") ;;
  write "(" ;;
  dumpArg args 0 ;;
  write kSpace ;; write opString ;; write kSpace ;;
  dumpArg args 1 ;;
  write ")".

Definition dumpRValueOperator (op : RValueOperator) (args : list ValueId)
    : Emitted :=
  match op with
  (* Unary *)
  | Negative =>
      ASSERT_PRECONDITION (length args =? 1)%nat
        "Negative must be a unary operator" ;;
      write "-(" ;; dumpArg args 0 ;; write ")"
  | LogicalNot =>
      ASSERT_PRECONDITION (length args =? 1)%nat
        "LogicalNot must be a unary operator" ;;
      write "!(" ;; dumpArg args 0 ;; write ")"
  | BitwiseNot =>
      ASSERT_PRECONDITION (length args =? 1)%nat
        "BitwiseNot must be a unary operator" ;;
      write "~(" ;; dumpArg args 0 ;; write ")"
  | PostIncrement =>
      ASSERT_PRECONDITION (length args =? 1)%nat
        "PostIncrement must be a unary operator" ;;
      dumpArg args 0 ;; write "++"
  | PostDecrement =>
      ASSERT_PRECONDITION (length args =? 1)%nat
        "PostDecrement must be a unary operator" ;;
      dumpArg args 0 ;; write "--"
  | PreIncrement =>
      ASSERT_PRECONDITION (length args =? 1)%nat
        "PreIncrement must be a unary operator" ;;
      write "++" ;; dumpArg args 0
  | PreDecrement =>
      ASSERT_PRECONDITION (length args =? 1)%nat
        "PreDecrement must be a unary operator" ;;
      write "--" ;; dumpArg args 0
  | ArrayLength =>
      ASSERT_PRECONDITION (length args =? 1)%nat
        "ArrayLength must be a unary operator" ;;
      dumpArg args 0 ;; write ".length"
  (* Binary *)
  | Add => dumpBinaryRValueOperator op args "+"
  | Sub => dumpBinaryRValueOperator op args "-"
  | Mul => dumpBinaryRValueOperator op args "*"
  | Div => dumpBinaryRValueOperator op args "/"
  | Mod => dumpBinaryRValueOperator op args "%"
  | RightShift => dumpBinaryRValueOperator op args ">>"
  | LeftShift => dumpBinaryRValueOperator op args "<<"
  | And => dumpBinaryRValueOperator op args "&"
  | InclusiveOr => dumpBinaryRValueOperator op args "|"
  | ExclusiveOr => dumpBinaryRValueOperator op args "^"
  | Equal => dumpBinaryRValueOperator op args "=="
  | NotEqual => dumpBinaryRValueOperator op args "!="
  | LessThan => dumpBinaryRValueOperator op args "<"
  | GreaterThan => dumpBinaryRValueOperator op args ">"
  | LessThanEqual => dumpBinaryRValueOperator op args "<="
  | GreaterThanEqual => dumpBinaryRValueOperator op args ">="
  | Comma => dumpBinaryRValueOperator op args ","
  | LogicalOr => dumpBinaryRValueOperator op args "||"
  | LogicalXor => dumpBinaryRValueOperator op args "^^"
  | LogicalAnd => dumpBinaryRValueOperator op args "&&"
  | Index =>
      ASSERT_PRECONDITION (length args =? 2)%nat
        (rValueOperatorToString op +:+ " must be a binary operator") ;;
      dumpArg args 0 ;; write "[" ;; dumpArg args 1 ;; write "]"
  | Assign => dumpBinaryRValueOperator op args "="
  | AddAssign => dumpBinaryRValueOperator op args "+="
  | SubAssign => dumpBinaryRValueOperator op args "-="
  | MulAssign => dumpBinaryRValueOperator op args "*="
  | DivAssign => dumpBinaryRValueOperator op args "/="
  | ModAssign => dumpBinaryRValueOperator op args "%="
  | AndAssign => dumpBinaryRValueOperator op args "&="
  | InclusiveOrAssign => dumpBinaryRValueOperator op args "|="
  | ExclusiveOrAssign => dumpBinaryRValueOperator op args "^="
  | LeftShiftAssign => dumpBinaryRValueOperator op args "<<="
  | RightShiftAssign => dumpBinaryRValueOperator op args ">>="
  (* Ternary *)
  | Ternary =>
      ASSERT_PRECONDITION (length args =? 3)%nat
        "Ternary must be a ternary operator" ;;
      write "((" ;; dumpArg args 0 ;;
      write ")" ;; write kSpace ;; write "?" ;; write kSpace ;; write "(" ;;
      dumpArg args 1 ;;
      write ")" ;; write kSpace ;; write ":" ;; write kSpace ;; write "(" ;;
      dumpArg args 2 ;;
      write "))"
  (* Misc *)
  | ConstructStruct =>
      write "(" ;; write (rValueOperatorToString op) ;;
      forEach (λ arg, write kSpace ;; dumpValue_rec arg) args ;;
      write ")"
  end.

(** The loop of [dumpRValueFunctionCall], with its flag [firstArg]. *)
Fixpoint dumpCallArgs (firstArg : bool) (args : list ValueId) : Emitted :=
  match args with
  | [] => Ok ""
  | arg :: rest =>
      (if firstArg then Ok "" else (write "," ;; write kSpace)) ;;
      dumpValue_rec arg ;;
      dumpCallArgs false rest
  end.

Definition dumpRValueFunctionCall (pack : PackFromGlsl)
    (functionId : FunctionId) (args : list ValueId) : Emitted :=
  dumpFunctionName pack functionId ;;
  write "(" ;;
  dumpCallArgs true args ;;
  write ")".

End OperatorEmitters.

Definition dumpGlobalSymbol (pack : PackFromGlsl)
    (globalSymbolId : GlobalSymbolId) : Emitted :=
  if globalSymbolId =? 0 then write "INVALID_GLOBAL_SYMBOL"
  else
    ASSERT_PRECONDITION
      (bool_decide (is_Some (globalSymbols pack !! globalSymbolId)))
      "Missing global symbol" ;;
    match globalSymbols pack !! globalSymbolId with
    | None => Abort OutOfRange
    | Some globalSymbol => write (globalSymbol_name globalSymbol)
    end.

Definition dumpLocalSymbol (pack : PackFromGlsl) (function : FunctionDefinition)
    (localSymbolId : LocalSymbolId) (dumpType_ : bool) : Emitted :=
  if localSymbolId =? 0 then write "INVALID_LOCAL_SYMBOL"
  else
    ASSERT_PRECONDITION
      (bool_decide (is_Some
         (localSymbols_find (function_localSymbols function) localSymbolId)))
      "Missing local symbol" ;;
    match localSymbols_find (function_localSymbols function) localSymbolId with
    | None => Abort OutOfRange
    | Some localSymbol =>
        (if dumpType_
         then (dumpType pack (localSymbol_type localSymbol) ;; write " ")
         else Ok "") ;;
        write (localSymbol_name localSymbol)
    end.

(** The dispatch of [dumpValue] on the alternative held by [valueId], over
    the emitter for rvalues. *)
Definition dumpValueWith (dumpRValue_rec : RValueId → Emitted)
    (pack : PackFromGlsl) (function : FunctionDefinition) (valueId : ValueId)
    : Emitted :=
  match valueId with
  | ValueRValue rValueId => dumpRValue_rec rValueId
  | ValueGlobalSymbol globalSymbolId => dumpGlobalSymbol pack globalSymbolId
  | ValueLocalSymbol localSymbolId =>
      dumpLocalSymbol pack function localSymbolId false
  end.

(** The sentinel test comes first and needs no table; one unit of fuel is
    spent on each handle that is resolved in [pack.rValues]. *)
Fixpoint dumpRValue (fuel : nat) (pack : PackFromGlsl)
    (function : FunctionDefinition) (rValueId : RValueId) : Emitted :=
  if rValueId =? 0 then write "INVALID_RVALUE"
  else
    match fuel with
    | O => OutOfFuel
    | S fuel' =>
        ASSERT_PRECONDITION (bool_decide (is_Some (rValues pack !! rValueId)))
          "Missing RValue" ;;
        match rValues pack !! rValueId with
        | None => Abort OutOfRange
        | Some (Evaluable evaluable) =>
            let dumpValue_rec :=
              dumpValueWith (dumpRValue fuel' pack function) pack function in
            match evaluable_op evaluable with
            | OpOperator op =>
                dumpRValueOperator dumpValue_rec op (evaluable_args evaluable)
            | OpFunction functionId =>
                dumpRValueFunctionCall dumpValue_rec pack functionId
                  (evaluable_args evaluable)
            end
        | Some (Literal literal) => write "LITERAL"
        end
    end.

Definition dumpValue (fuel : nat) (pack : PackFromGlsl)
    (function : FunctionDefinition) (valueId : ValueId) : Emitted :=
  dumpValueWith (dumpRValue fuel pack function) pack function valueId.

(** ** Statements *)

(** The loop [for (int i = 0; i < depth - 1; ++i) indentMinusOne +=
    kIndentAmount], run for [n] iterations from the accumulator [acc]. *)
Fixpoint indentLoop (n : nat) (acc : string) : string :=
  match n with
  | O => acc
  | S n' => indentLoop n' (acc +:+ kIndentAmount)
  end.

Definition indentMinusOneOf (depth : Z) : string :=
  indentLoop (Z.to_nat (depth - 1)) "".

Definition indentOf (depth : Z) : string :=
  let indentMinusOne := indentMinusOneOf depth in
  if (0 <? depth)%Z then indentMinusOne +:+ kIndentAmount else indentMinusOne.

Definition branchKeyword (op : BranchOperator) : string :=
  match op with
  | Discard => "discard"
  | TerminateInvocation => "terminateInvocation"
  | Demote => "demote"
  | TerminateRayEXT => "terminateRayEXT"
  | IgnoreIntersectionEXT => "terminateIntersectionEXT"
  | Return => "return"
  | Break => "break"
  | Continue => "continue"
  | Case => "case"
  | Default => "default"
  end.

Section StatementEmitter.

Variable pack : PackFromGlsl.
Variable function : FunctionDefinition.
(** The recursive calls of [dumpBlock]: on rvalues and on nested blocks. *)
Variable dumpRValue_rec : RValueId → Emitted.
Variable dumpBlock_rec : StatementBlockId → Z → Emitted.

Let dumpValue_rec := dumpValueWith dumpRValue_rec pack function.

(** The body of the loop over the statements of a block in [dumpBlock]. *)
Definition dumpStatement (depth : Z) (statement : Statement) : Emitted :=
  let indentMinusOne := indentMinusOneOf depth in
  let indent := indentOf depth in
  match statement with
  | StatementRValue rValueId =>
      write indent ;; dumpRValue_rec rValueId ;; write ";" ;; write LF
  | StatementIf ifStatement =>
      write indent ;; write "if" ;; write kSpace ;; write "(" ;;
      dumpValue_rec (if_condition ifStatement) ;;
      write ")" ;; write kSpace ;; write "{" ;; write LF ;;
      dumpBlock_rec (if_thenBlock ifStatement) (depth + 1)%Z ;;
      match if_elseBlock ifStatement with
      | Some elseBlock =>
          write indent ;; write "}" ;; write kSpace ;; write "else" ;;
          write kSpace ;; write "{" ;; write LF ;;
          dumpBlock_rec elseBlock (depth + 1)%Z
      | None => Ok ""
      end ;;
      write indent ;; write "}" ;; write LF
  | StatementSwitch switchStatement =>
      write indent ;; write "switch" ;; write kSpace ;; write "(" ;;
      dumpValue_rec (switch_condition switchStatement) ;;
      write ")" ;; write kSpace ;; write "{" ;; write LF ;;
      dumpBlock_rec (switch_body switchStatement) (depth + 1)%Z ;;
      write indent ;; write "}" ;; write LF
  | StatementBranch branchStatement =>
      match branch_op branchStatement with
      | Discard => write indent ;; write "discard"
      | TerminateInvocation => write indent ;; write "terminateInvocation"
      | Demote => write indent ;; write "demote"
      | TerminateRayEXT => write indent ;; write "terminateRayEXT"
      | IgnoreIntersectionEXT =>
          write indent ;; write "terminateIntersectionEXT"
      | Return => write indent ;; write "return"
      | Break => write indent ;; write "break"
      | Continue => write indent ;; write "continue"
      | Case => write indentMinusOne ;; write "case"
      | Default => write indentMinusOne ;; write "default"
      end ;;
      match branch_operand branchStatement with
      | Some operand => write " " ;; dumpValue_rec operand
      | None => Ok ""
      end ;;
      match branch_op branchStatement with
      | Case | Default => write ":" ;; write LF
      | _ => write ";" ;; write LF
      end
  | StatementLoop loopStatement =>
      if loop_testFirst loopStatement then
        match loop_terminal loopStatement with
        | Some terminal =>
            write indent ;; write "for" ;; write kSpace ;; write "(;" ;;
            write kSpace ;;
            dumpValue_rec (loop_condition loopStatement) ;;
            write ";" ;; write kSpace ;;
            dumpRValue_rec terminal
        | None =>
            write indent ;; write "while" ;; write kSpace ;; write "(" ;;
            dumpValue_rec (loop_condition loopStatement)
        end ;;
        write ")" ;; write kSpace ;; write "{" ;; write LF ;;
        dumpBlock_rec (loop_body loopStatement) (depth + 1)%Z ;;
        write indent ;; write "}" ;; write LF
      else
        write indent ;; write "do" ;; write kSpace ;; write "{" ;; write LF ;;
        dumpBlock_rec (loop_body loopStatement) (depth + 1)%Z ;;
        write indent ;; write "}" ;; write kSpace ;; write "while" ;;
        write kSpace ;; write "(" ;;
        dumpValue_rec (loop_condition loopStatement) ;;
        write ");" ;; write LF
  end.

End StatementEmitter.

(** The block is looked up first; one unit of fuel is spent on each block
    whose statements are walked.  Rvalues and nested blocks are emitted with
    the fuel that is left. *)
Fixpoint dumpBlock (fuel : nat) (pack : PackFromGlsl)
    (function : FunctionDefinition) (blockId : StatementBlockId) (depth : Z)
    : Emitted :=
  ASSERT_PRECONDITION (bool_decide (is_Some (statementBlocks pack !! blockId)))
    "Missing block definition" ;;
  match statementBlocks pack !! blockId with
  | None => Abort OutOfRange
  | Some statements =>
      match fuel with
      | O => OutOfFuel
      | S fuel' =>
          forEach
            (dumpStatement pack function (dumpRValue fuel' pack function)
               (dumpBlock fuel' pack function) depth)
            statements
      end
  end.

(** ** Functions and the whole program *)

(** The loop over [function.parameters] in [dumpFunction], with its flag
    [firstParameter]. *)
Fixpoint dumpParameters (pack : PackFromGlsl) (function : FunctionDefinition)
    (firstParameter : bool) (parameters : list FunctionParameter) : Emitted :=
  match parameters with
  | [] => Ok ""
  | parameter :: rest =>
      (if firstParameter then Ok "" else (write "," ;; write kSpace)) ;;
      dumpLocalSymbol pack function (parameter_name parameter) true ;;
      dumpParameters pack function false rest
  end.

(** [parameterSymbolIds] once the loop over the parameters has run. *)
Definition parameterSymbolIdsOf (function : FunctionDefinition) : gset N :=
  list_to_set (parameter_name <$> function_parameters function).

(** The body of the loop over [function.localSymbols] in [dumpFunction]:
    a local symbol that is not a parameter is declared on a line of its
    own. *)
Definition dumpLocalDeclaration (pack : PackFromGlsl)
    (parameterSymbolIds : gset N) (localSymbol : LocalSymbolId * LocalSymbol)
    : Emitted :=
  if bool_decide (localSymbol.1 ∈ parameterSymbolIds) then Ok ""
  else
    write kIndentAmount ;;
    dumpType pack (localSymbol_type localSymbol.2) ;;
    write kSpace ;; write (localSymbol_name localSymbol.2) ;;
    write ";" ;; write LF.

Definition dumpFunction (fuel : nat) (pack : PackFromGlsl)
    (functionId : FunctionId) (dumpBody : bool) : Emitted :=
  if negb dumpBody
     && negb (bool_decide (is_Some (functionDefinitions pack !! functionId)))
  then Ok ""
  else
    ASSERT_PRECONDITION
      (bool_decide (is_Some (functionDefinitions pack !! functionId)))
      "Missing function definition" ;;
    match functionDefinitions pack !! functionId with
    | None => Abort OutOfRange
    | Some function =>
        dumpType pack (function_returnType function) ;;
        write " " ;;
        dumpFunctionName pack (function_name function) ;;
        write "(" ;;
        dumpParameters pack function true (function_parameters function) ;;
        let parameterSymbolIds := parameterSymbolIdsOf function in
        write ")" ;;
        if dumpBody then
          write " {" ;; write LF ;;
          forEach (dumpLocalDeclaration pack parameterSymbolIds)
            (function_localSymbols function) ;;
          dumpBlock fuel pack function (function_body function) 1 ;;
          write "}" ;; write LF
        else
          write ";" ;; write LF
    end.

Definition toGlsl (fuel : nat) (pack : PackFromGlsl) : Emitted :=
  forEach (λ functionId, dumpFunction fuel pack functionId false)
    (functionPrototypes pack) ;;
  forEach (λ functionId, dumpFunction fuel pack functionId true)
    (functionDefinitionOrder pack).

(** ** CappedArray (filament/backend/src/vulkan/utils/CappedArray.h)

    [CappedArray<T, CAPACITY>] holds a [std::array<T, CAPACITY>] and the
    number [mInd] of elements the user added.  [assert_invariant] is taken as
    checked; an operation that fails its assertion, or that reads or writes
    the array out of its bounds, has no result ([None]). *)

Module CappedArray.
Section WithElements.

Context {T : Type}.
Variable CAPACITY : N.

Record t := {
  mArray : list T;
  mInd : N;
}.

(** The array member always has [CAPACITY] slots. *)
Definition wellFormed (c : t) : Prop :=
  N.of_nat (length (mArray c)) = CAPACITY.

Definition size (c : t) : N := mInd c.

(** [assert_invariant(mInd > 0); return *(mArray.begin() + mInd);] *)
Definition back (c : t) : option T :=
  if 0 <? mInd c then mArray c !! N.to_nat (mInd c) else None.

(** [assert_invariant(mInd > 0); mInd--;] *)
Definition pop_back (c : t) : option t :=
  if 0 <? mInd c then Some {| mArray := mArray c; mInd := mInd c - 1 |}
  else None.

(** [assert_invariant(mInd < CAPACITY); mArray[mInd++] = item;] *)
Definition insert (item : T) (c : t) : option t :=
  if mInd c <? CAPACITY then
    Some {| mArray := <[N.to_nat (mInd c) := item]> (mArray c);
            mInd := mInd c + 1 |}
  else None.

(** [if (mInd == 0) return; mInd = 0;] *)
Definition clear (c : t) : t :=
  if mInd c =? 0 then c else {| mArray := mArray c; mInd := 0 |}.

(** [operator[]] *)
Definition at_ (c : t) (ind : N) : option T := mArray c !! N.to_nat ind.

(** An iterator into [mArray] is kept as the index it points at;
    [mArray.end()] is the index [CAPACITY]. *)

(** [if (mInd == 0) return mArray.end(); return mArray.begin();] *)
Definition begin_ (c : t) : N := if mInd c =? 0 then CAPACITY else 0.

(** [if (mInd > 0 && mInd < CAPACITY) return mArray.begin() + mInd;
    return mArray.end();] *)
Definition end_ (c : t) : N :=
  if (0 <? mInd c) && (mInd c <? CAPACITY) then mInd c else CAPACITY.

Context `{!EqDecision T}.

(** [std::find(first, last, item)] over the [n] slots from [first] on: the
    first position that holds [item], or the position after the last slot. *)
Fixpoint std_find (array : list T) (first : N) (n : nat) (item : T) : N :=
  match n with
  | O => first
  | S n' =>
      match array !! N.to_nat first with
      | Some element =>
          if decide (element = item) then first
          else std_find array (first + 1) n' item
      | None => first
      end
  end.

(** [return std::find(begin(), end(), item);] *)
Definition find (item : T) (c : t) : N :=
  std_find (mArray c) (begin_ c) (N.to_nat (end_ c - begin_ c)) item.

(** [operator==]: [this->mArray == b.mArray]. *)
Definition equal (c b : t) : bool := bool_decide (mArray c = mArray b).

End WithElements.
End CappedArray.

(** * Vocabulary of the specification

    The tables below follow the wording of the specification; the theorems
    compare them with what the emitter above does. *)

(** The fixed number of arguments of an operator: 1 for the unary ones, 2 for
    the binary ones (Index among them), 3 for Ternary.  ConstructStruct takes
    any number of arguments. *)
Definition arity (op : RValueOperator) : option nat :=
  match op with
  | Negative | LogicalNot | BitwiseNot
  | PostIncrement | PostDecrement | PreIncrement | PreDecrement
  | ArrayLength => Some 1%nat
  | Add | Sub | Mul | Div | Mod | RightShift | LeftShift
  | And | InclusiveOr | ExclusiveOr
  | Equal | NotEqual | LessThan | GreaterThan
  | LessThanEqual | GreaterThanEqual
  | Comma | LogicalOr | LogicalXor | LogicalAnd
  | Index
  | Assign | AddAssign | SubAssign | MulAssign | DivAssign | ModAssign
  | AndAssign | InclusiveOrAssign | ExclusiveOrAssign
  | LeftShiftAssign | RightShiftAssign => Some 2%nat
  | Ternary => Some 3%nat
  | ConstructStruct => None
  end.

(** The canonical symbol of a binary operator as GLSL spells it.  Index has
    none: it is written with brackets. *)
Definition SYMBOL (op : RValueOperator) : option string :=
  match op with
  | Add => Some "+" | Sub => Some "-" | Mul => Some "*" | Div => Some "/"
  | Mod => Some "%"
  | RightShift => Some ">>" | LeftShift => Some "<<"
  | And => Some "&" | InclusiveOr => Some "|" | ExclusiveOr => Some "^"
  | Equal => Some "==" | NotEqual => Some "!="
  | LessThan => Some "<" | GreaterThan => Some ">"
  | LessThanEqual => Some "<=" | GreaterThanEqual => Some ">="
  | Comma => Some ","
  | LogicalOr => Some "||" | LogicalXor => Some "^^" | LogicalAnd => Some "&&"
  | Assign => Some "="
  | AddAssign => Some "+=" | SubAssign => Some "-=" | MulAssign => Some "*="
  | DivAssign => Some "/=" | ModAssign => Some "%="
  | AndAssign => Some "&=" | InclusiveOrAssign => Some "|="
  | ExclusiveOrAssign => Some "^="
  | LeftShiftAssign => Some "<<=" | RightShiftAssign => Some ">>="
  | _ => None
  end.

(** Whether the character [c] occurs in [s]. *)
Fixpoint contains (c : ascii) (s : string) : bool :=
  match s with
  | EmptyString => false
  | String a rest => Ascii.eqb a c || contains c rest
  end.

(** The text of a parameter in a signature: the type of the local symbol it
    names, a space, and the name of that symbol. *)
Definition parameterText (pack : PackFromGlsl) (function : FunctionDefinition)
    (parameter : FunctionParameter) (text : string) : Prop :=
  parameter_name parameter ≠ 0
  ∧ ∃ localSymbol type,
      localSymbols_find (function_localSymbols function)
        (parameter_name parameter) = Some localSymbol
      ∧ dumpType pack (localSymbol_type localSymbol) = Ok type
      ∧ text = type +:+ " " +:+ localSymbol_name localSymbol.

(** The three shapes of a loop, each on lines of its own: [indent] is the
    indentation of the enclosing block and [body] the text of the loop's
    block. *)
Definition forShape (indent cond terminal body : string) : string :=
  indent +:+ "for (; " +:+ cond +:+ "; " +:+ terminal +:+ ") {" +:+ LF
    +:+ body +:+ indent +:+ "}" +:+ LF.

Definition whileShape (indent cond body : string) : string :=
  indent +:+ "while (" +:+ cond +:+ ") {" +:+ LF
    +:+ body +:+ indent +:+ "}" +:+ LF.

Definition doWhileShape (indent cond body : string) : string :=
  indent +:+ "do {" +:+ LF
    +:+ body +:+ indent +:+ "} while (" +:+ cond +:+ ");" +:+ LF.

(** The keyword (with the punctuation that follows it at once) that opens a
    statement other than an expression statement. *)
Definition statementOpening (statement : Statement) : option string :=
  match statement with
  | StatementRValue _ => None
  | StatementIf _ => Some "if ("
  | StatementSwitch _ => Some "switch ("
  | StatementBranch branchStatement =>
      Some (branchKeyword (branch_op branchStatement))
  | StatementLoop loopStatement =>
      if loop_testFirst loopStatement then
        match loop_terminal loopStatement with
        | Some _ => Some "for (; "
        | None => Some "while ("
        end
      else Some "do {"
  end.

Definition isCaseOrDefault (statement : Statement) : bool :=
  match statement with
  | StatementBranch {| branch_op := Case |}
  | StatementBranch {| branch_op := Default |} => true
  | _ => false
  end.

(** [n] indentation units. *)
Fixpoint indentation (n : nat) : string :=
  match n with
  | O => ""
  | S n' => kIndentAmount +:+ indentation n'
  end.

(** ** The reference graph of a pack

    The nodes are the handles the emitter recurses on: rvalues and statement
    blocks.  The children of a node are the handles its table entry refers
    to and that the emitter descends into. *)
Inductive Node :=
  | RValueNode (rValueId : RValueId)
  | BlockNode (blockId : StatementBlockId).

Definition valueNodes (valueId : ValueId) : list Node :=
  match valueId with
  | ValueRValue rValueId => [RValueNode rValueId]
  | _ => []
  end.

Definition rValueChildren (rValue : RValue) : list Node :=
  match rValue with
  | Evaluable evaluable => evaluable_args evaluable ≫= valueNodes
  | Literal _ => []
  end.

Definition statementChildren (statement : Statement) : list Node :=
  match statement with
  | StatementRValue rValueId => [RValueNode rValueId]
  | StatementIf ifStatement =>
      valueNodes (if_condition ifStatement)
      ++ BlockNode (if_thenBlock ifStatement)
      :: match if_elseBlock ifStatement with
         | Some elseBlock => [BlockNode elseBlock]
         | None => []
         end
  | StatementSwitch switchStatement =>
      valueNodes (switch_condition switchStatement)
      ++ [BlockNode (switch_body switchStatement)]
  | StatementBranch branchStatement =>
      match branch_operand branchStatement with
      | Some operand => valueNodes operand
      | None => []
      end
  | StatementLoop loopStatement =>
      valueNodes (loop_condition loopStatement)
      ++ (if loop_testFirst loopStatement then
            match loop_terminal loopStatement with
            | Some terminal => [RValueNode terminal]
            | None => []
            end
          else [])
      ++ [BlockNode (loop_body loopStatement)]
  end.

Definition children (pack : PackFromGlsl) (node : Node) : list Node :=
  match node with
  | RValueNode rValueId =>
      match rValues pack !! rValueId with
      | Some rValue => rValueChildren rValue
      | None => []
      end
  | BlockNode blockId =>
      match statementBlocks pack !! blockId with
      | Some statements => statements ≫= statementChildren
      | None => []
      end
  end.

(** [refs pack child parent]: the entry of [parent] refers to [child]. *)
Definition refs (pack : PackFromGlsl) (child parent : Node) : Prop :=
  child ∈ children pack parent.

(** A pack is acyclic when nesting is finite: no handle starts an endless
    chain of references.  On the finite tables of a pack this is the absence
    of cycles. *)
Definition acyclic (pack : PackFromGlsl) : Prop := well_founded (refs pack).

(** [rank] numbers the nodes so that every reference goes to a smaller
    number, and every number is below [depth]: the nesting of the pack is at
    most [depth] deep. *)
Definition nestingWithin (pack : PackFromGlsl) (rank : Node → nat)
    (depth : nat) : Prop :=
  ∀ parent,
    (rank parent < depth)%nat
    ∧ Forall (λ child, (rank child < rank parent)%nat) (children pack parent).

(** Whether the call chain of an emission stayed within the fuel. *)
Definition withinFuel (r : Emitted) : Prop := r ≠ OutOfFuel.

(** [approximates r r']: [r'] is the outcome [r], or [r] ran out of fuel. *)
Definition approximates (r r' : Emitted) : Prop := r = OutOfFuel ∨ r = r'.

(** [panicFromArgs dumpValue_rec args r]: when the outcome [r] is a panic, it
    is the panic of the emission of one of [args]. *)
Definition panicFromArgs (dumpValue_rec : ValueId → Emitted)
    (args : list ValueId) (r : Emitted) : Prop :=
  ∀ panic, r = Abort panic →
    ∃ arg, arg ∈ args ∧ dumpValue_rec arg = Abort panic.


(** [settled pack fuel node]: with [fuel], the emission of [node] stays within
    its fuel, in every function and at every depth. *)
Definition settled (pack : PackFromGlsl) (fuel : nat) (node : Node) : Prop :=
  match node with
  | RValueNode rValueId =>
      ∀ function, withinFuel (dumpRValue fuel pack function rValueId)
  | BlockNode blockId =>
      ∀ function depth,
        withinFuel (dumpBlock fuel pack function blockId depth)
  end.

(** The emission came to an end: with its text, or with a panic. *)
Definition finished (r : Emitted) : Prop :=
  (∃ text, r = Ok text) ∨ (∃ panic, r = Abort panic).

(** * A sample program

    One function [float f(float a, float b)] with the locals [x], [i] and
    [n], and the rvalues and blocks that the examples below refer to. *)

Definition sampleFunction : FunctionDefinition := {|
  function_name := 1;
  function_returnType := 1;
  function_parameters :=
    [ {| parameter_name := 1; parameter_type := 1 |};
      {| parameter_name := 2; parameter_type := 1 |} ];
  function_body := 9;
  function_localSymbols :=
    [ (1, {| localSymbol_type := 1; localSymbol_name := "a" |});
      (2, {| localSymbol_type := 1; localSymbol_name := "b" |});
      (3, {| localSymbol_type := 1; localSymbol_name := "x" |});
      (4, {| localSymbol_type := 2; localSymbol_name := "i" |});
      (5, {| localSymbol_type := 2; localSymbol_name := "n" |}) ];
|}.

Definition sampleForLoop : LoopStatement := {|
  loop_condition := ValueRValue 5;
  loop_terminal := Some 4;
  loop_testFirst := true;
  loop_body := 1;
|}.

Definition sampleDoLoop : LoopStatement := {|
  loop_condition := ValueLocalSymbol 3;
  loop_terminal := None;
  loop_testFirst := false;
  loop_body := 1;
|}.

Definition samplePack : PackFromGlsl := {|
  types :=
    {[ 1 := {| type_name := "float"; type_precision := "";
               type_arraySizes := [] |};
       2 := {| type_name := "int"; type_precision := "highp";
               type_arraySizes := [] |} ]};
  globalSymbols := {[ 1 := {| globalSymbol_name := "gl_Position" |} ]};
  rValues :=
    {[ 1 := Evaluable {| evaluable_op := OpOperator Add;
                         evaluable_args :=
                           [ValueLocalSymbol 1; ValueLocalSymbol 2] |};
       2 := Evaluable {| evaluable_op := OpOperator LogicalNot;
                         evaluable_args := [ValueLocalSymbol 3] |};
       3 := Literal {| literal_value := 1 |};
       4 := Evaluable {| evaluable_op := OpOperator PostIncrement;
                         evaluable_args := [ValueLocalSymbol 4] |};
       5 := Evaluable {| evaluable_op := OpOperator LessThan;
                         evaluable_args :=
                           [ValueLocalSymbol 4; ValueLocalSymbol 5] |};
       6 := Evaluable {| evaluable_op := OpFunction 1;
                         evaluable_args :=
                           [ValueRValue 1; ValueLocalSymbol 3] |};
       7 := Evaluable {| evaluable_op := OpOperator Negative;
                         evaluable_args := [] |} ]};
  functionNames := {[ 1 := "f(f1;f1;" ]};
  statementBlocks :=
    {[ 1 := [];
       2 := [StatementBranch
               {| branch_op := Return;
                  branch_operand := Some (ValueRValue 3) |}];
       3 := [StatementIf
               {| if_condition := ValueRValue 2; if_thenBlock := 2;
                  if_elseBlock := None |}];
       4 := [StatementLoop sampleForLoop];
       5 := [StatementLoop sampleDoLoop];
       7 := [StatementBranch
               {| branch_op := Case;
                  branch_operand := Some (ValueRValue 3) |};
             StatementBranch
               {| branch_op := Break; branch_operand := None |}];
       9 := [StatementRValue 6;
             StatementSwitch
               {| switch_condition := ValueLocalSymbol 4;
                  switch_body := 7 |};
             StatementLoop sampleForLoop] ]};
  functionDefinitions := {[ 1 := sampleFunction ]};
  functionPrototypes := [1; 12];
  functionDefinitionOrder := [1];
|}.

(** A numbering of the handles of the sample that decreases along every
    reference: an rvalue by its handle, a block above all rvalues and by its
    handle. *)
Definition sampleRank (node : Node) : nat :=
  match node with
  | RValueNode rValueId => N.to_nat (N.min rValueId 9)
  | BlockNode blockId => 10 + N.to_nat (N.min blockId 9)
  end.

(** A CappedArray of capacity 4 that holds one element, 1; the other slots
    hold what was left in them. *)
Definition sampleArray : CappedArray.t (T := Z) :=
  {| CappedArray.mArray := [1; 2; 3; 4]%Z; CappedArray.mInd := 1 |}.

(** * Further vocabulary *)

(** The text of a unary operator applied to an operand whose text is
    [operand]. *)
Definition unaryText (op : RValueOperator) (operand : string)
    : option string :=
  match op with
  | Negative => Some ("-(" +:+ operand +:+ ")")
  | LogicalNot => Some ("!(" +:+ operand +:+ ")")
  | BitwiseNot => Some ("~(" +:+ operand +:+ ")")
  | PostIncrement => Some (operand +:+ "++")
  | PostDecrement => Some (operand +:+ "--")
  | PreIncrement => Some ("++" +:+ operand)
  | PreDecrement => Some ("--" +:+ operand)
  | ArrayLength => Some (operand +:+ ".length")
  | _ => None
  end.

(** The texts of a list, one after the other. *)
Definition concatTexts (texts : list string) : string :=
  foldr String.app "" texts.

(** The text of a type: its precision and a space when it has one, its name,
    and each array size in brackets. *)
Definition typeText (type : Type_) : string :=
  (if String.eqb (type_precision type) "" then ""
   else type_precision type +:+ " ")
  +:+ type_name type
  +:+ concatTexts ((λ arraySize : Z, "[" +:+ pretty arraySize +:+ "]")
                     <$> type_arraySizes type).

(** What ends a branch statement: a colon after Case and Default, a semicolon
    after the others. *)
Definition branchTerminator (op : BranchOperator) : string :=
  match op with
  | Case | Default => ":"
  | _ => ";"
  end.

(** [endsWithLF text]: the last character of [text] is a line feed. *)
Definition endsWithLF (text : string) : Prop := ∃ line, text = line +:+ LF.

(** ** A second sample

    The sample program with two more rvalues, a block whose second statement
    panics, and a second function, [void main()], without parameters, locals
    or statements. *)

Definition sampleMain : FunctionDefinition := {|
  function_name := 2;
  function_returnType := 3;
  function_parameters := [];
  function_body := 1;
  function_localSymbols := [];
|}.

Definition samplePack2 : PackFromGlsl := {|
  types :=
    <[3 := {| type_name := "void"; type_precision := "";
              type_arraySizes := [] |}]>
    (<[4 := {| type_name := "vec4"; type_precision := "mediump";
               type_arraySizes := [2; 3]%Z |}]> (types samplePack));
  globalSymbols := globalSymbols samplePack;
  rValues :=
    <[8 := Evaluable {| evaluable_op := OpOperator Ternary;
                        evaluable_args :=
                          [ValueLocalSymbol 3; ValueLocalSymbol 1;
                           ValueLocalSymbol 2] |}]>
    (<[9 := Evaluable {| evaluable_op := OpOperator ConstructStruct;
                         evaluable_args :=
                           [ValueLocalSymbol 1; ValueLocalSymbol 2] |}]>
       (rValues samplePack));
  functionNames := <[2 := "main("]> (functionNames samplePack);
  statementBlocks :=
    <[10 := [StatementRValue 1; StatementRValue 7; StatementRValue 1]]>
      (statementBlocks samplePack);
  functionDefinitions := <[2 := sampleMain]> (functionDefinitions samplePack);
  functionPrototypes := [2; 1];
  functionDefinitionOrder := [2; 1];
|}.

(** * Properties of the emitter *)

(** ** Sequencing and strings *)

Lemma string_app_assoc (s t u : string) : (s +:+ t) +:+ u = s +:+ t +:+ u.
Proof.
  induction s as [|a s IH]; [reflexivity|].
  change (String a ((s +:+ t) +:+ u) = String a (s +:+ t +:+ u)).
  now rewrite IH.
Qed.

Lemma string_app_empty_r (s : string) : s +:+ "" = s.
Proof.
  induction s as [|a s IH]; [reflexivity|].
  change (String a (s +:+ "") = String a s). now rewrite IH.
Qed.

Lemma string_app_length (s t : string) :
  String.length (s +:+ t) = (String.length s + String.length t)%nat.
Proof.
  induction s as [|a s IH]; [reflexivity|].
  change (S (String.length (s +:+ t)) = S (String.length s + String.length t)).
  now rewrite IH.
Qed.

Lemma andThen_Ok (s t : string) : (Ok s ;; Ok t) = Ok (s +:+ t).
Proof. reflexivity. Qed.

Lemma andThen_empty_l (r : Emitted) : (Ok "" ;; r) = r.
Proof. now destruct r. Qed.

Lemma andThen_assoc (a b c : Emitted) : ((a ;; b) ;; c) = (a ;; b ;; c).
Proof.
  destruct a as [s| |]; [|reflexivity..].
  destruct b as [t| |]; [|reflexivity..].
  destruct c as [u| |]; [|reflexivity..].
  cbn. now rewrite string_app_assoc.
Qed.

Lemma andThen_Ok_Ok (s t : string) (r : Emitted) :
  (Ok s ;; Ok t ;; r) = (Ok (s +:+ t) ;; r).
Proof. now rewrite <- andThen_assoc. Qed.

Lemma andThen_Ok_inv (a b : Emitted) (text : string) :
  (a ;; b) = Ok text → ∃ s t, a = Ok s ∧ b = Ok t ∧ text = s +:+ t.
Proof.
  destruct a as [s| |]; [|discriminate..].
  destruct b as [t| |]; [|discriminate..].
  intros [= <-]. eauto.
Qed.

Lemma forEach_app {A} (body : A → Emitted) (xs ys : list A) :
  forEach body (xs ++ ys) = (forEach body xs ;; forEach body ys).
Proof.
  induction xs as [|x xs IH]; cbn [forEach app].
  - now rewrite andThen_empty_l.
  - now rewrite IH, andThen_assoc.
Qed.

Lemma ASSERT_PRECONDITION_true (reason : string) (r : Emitted) :
  (ASSERT_PRECONDITION true reason ;; r) = r.
Proof. apply andThen_empty_l. Qed.

Lemma ASSERT_PRECONDITION_false (reason : string) (r : Emitted) :
  (ASSERT_PRECONDITION false reason ;; r) = Abort (PreconditionPanic reason).
Proof. reflexivity. Qed.

(** [dumpRValue] on a handle that is not the sentinel, with fuel left. *)
Lemma dumpRValue_resolved fuel pack function rValueId rValue :
  rValueId ≠ 0 →
  rValues pack !! rValueId = Some rValue →
  dumpRValue (S fuel) pack function rValueId =
    match rValue with
    | Evaluable evaluable =>
        let dumpValue_rec := dumpValue fuel pack function in
        match evaluable_op evaluable with
        | OpOperator op =>
            dumpRValueOperator dumpValue_rec op (evaluable_args evaluable)
        | OpFunction functionId =>
            dumpRValueFunctionCall dumpValue_rec pack functionId
              (evaluable_args evaluable)
        end
    | Literal _ => write "LITERAL"
    end.
Proof.
  intros Hid Hlookup. cbn [dumpRValue].
  apply N.eqb_neq in Hid. rewrite Hid, Hlookup.
  rewrite bool_decide_true by eauto.
  rewrite ASSERT_PRECONDITION_true. reflexivity.
Qed.

(** ** Sentinel handles *)

(** C3. For each of the three kinds of value reference, the sentinel handle
    (id 0) makes the value emitter append its fixed placeholder.  The
    outcome is the same for every pack, every function and every amount of
    fuel, so it does not depend on any table, and it is never a fault. *)
Theorem sentinel_emits_placeholder (fuel : nat) (pack : PackFromGlsl)
    (function : FunctionDefinition) :
  dumpValue fuel pack function (ValueRValue 0) = Ok "INVALID_RVALUE"
  ∧ dumpValue fuel pack function (ValueGlobalSymbol 0)
    = Ok "INVALID_GLOBAL_SYMBOL"
  ∧ dumpValue fuel pack function (ValueLocalSymbol 0)
    = Ok "INVALID_LOCAL_SYMBOL"
  ∧ dumpRValue fuel pack function 0 = Ok "INVALID_RVALUE"
  ∧ dumpGlobalSymbol pack 0 = Ok "INVALID_GLOBAL_SYMBOL"
  ∧ ∀ dumpType_, dumpLocalSymbol pack function 0 dumpType_
                 = Ok "INVALID_LOCAL_SYMBOL".
Proof.
  assert (Hr : dumpRValue fuel pack function 0 = Ok "INVALID_RVALUE")
    by (destruct fuel; reflexivity).
  repeat split; try assumption; try reflexivity.
Qed.

(** ** Operators *)

Lemma dumpArg_lookup dumpValue_rec (args : list ValueId) i arg :
  args !! i = Some arg → dumpArg dumpValue_rec args i = dumpValue_rec arg.
Proof. intros H. unfold dumpArg. now rewrite H. Qed.

(** C1. An evaluable rvalue that applies a binary operator to [lhs] and
    [rhs], whose emissions append [l] and [r]: for every binary operator with
    a canonical symbol the expression emitter appends exactly
    "(" l " " SYMBOL " " r ")"; the one binary operator without a symbol is
    Index, for which it appends exactly l "[" r "]". *)
Theorem binary_operator_text (fuel : nat) (pack : PackFromGlsl)
    (function : FunctionDefinition) (rValueId : RValueId)
    (op : RValueOperator) (lhs rhs : ValueId) (l r : string) :
  rValueId ≠ 0 →
  rValues pack !! rValueId
    = Some (Evaluable {| evaluable_op := OpOperator op;
                         evaluable_args := [lhs; rhs] |}) →
  arity op = Some 2%nat →
  dumpValue fuel pack function lhs = Ok l →
  dumpValue fuel pack function rhs = Ok r →
  match SYMBOL op with
  | Some symbol =>
      dumpRValue (S fuel) pack function rValueId
        = Ok ("(" +:+ l +:+ " " +:+ symbol +:+ " " +:+ r +:+ ")")
  | None =>
      op = Index
      ∧ dumpRValue (S fuel) pack function rValueId = Ok (l +:+ "[" +:+ r +:+ "]")
  end.
Proof.
  intros Hid Hlookup Harity Hl Hr.
  rewrite (dumpRValue_resolved _ _ _ _ _ Hid Hlookup). cbn [evaluable_op evaluable_args].
  destruct op; try discriminate Harity; cbn [SYMBOL];
    unfold dumpRValueOperator, dumpBinaryRValueOperator;
    rewrite (dumpArg_lookup _ [lhs; rhs] 0 lhs eq_refl),
            (dumpArg_lookup _ [lhs; rhs] 1 rhs eq_refl), Hl, Hr;
    try split; reflexivity.
Qed.

Lemma dumpRValueOperator_arity_mismatch dumpValue_rec op args k :
  arity op = Some k →
  length args ≠ k →
  ∃ reason,
    dumpRValueOperator dumpValue_rec op args = Abort (PreconditionPanic reason).
Proof.
  intros Harity Hlen. apply Nat.eqb_neq in Hlen.
  destruct op; injection Harity as <- || discriminate Harity;
    cbn [dumpRValueOperator]; unfold dumpBinaryRValueOperator;
    rewrite Hlen; eexists; apply ASSERT_PRECONDITION_false.
Qed.

Lemma panicFromArgs_write dv args text : panicFromArgs dv args (write text).
Proof. intros panic [=]. Qed.

Lemma panicFromArgs_arg dv args arg :
  arg ∈ args → panicFromArgs dv args (dv arg).
Proof. intros Hin panic Hpanic. eauto. Qed.

Lemma panicFromArgs_andThen dv args a b :
  panicFromArgs dv args a → panicFromArgs dv args b →
  panicFromArgs dv args (a ;; b).
Proof.
  intros Ha Hb panic. destruct a as [s| |]; cbn.
  - destruct b as [t| |]; cbn; [discriminate|apply Hb|discriminate].
  - apply Ha.
  - discriminate.
Qed.

Lemma Ok_andThen (a b : Emitted) :
  (∃ s, a = Ok s) → (∃ t, b = Ok t) → ∃ u, (a ;; b) = Ok u.
Proof. intros [s ->] [t ->]. eexists; reflexivity. Qed.

Lemma dumpRValueOperator_arity_match dumpValue_rec op args k :
  arity op = Some k →
  length args = k →
  panicFromArgs dumpValue_rec args (dumpRValueOperator dumpValue_rec op args)
  ∧ ((∀ arg, arg ∈ args → ∃ text, dumpValue_rec arg = Ok text) →
     ∃ text, dumpRValueOperator dumpValue_rec op args = Ok text).
Proof.
  intros Harity Hlen.
  assert (Harg : ∀ i, (i < k)%nat →
    ∃ arg, arg ∈ args ∧ dumpArg dumpValue_rec args i = dumpValue_rec arg).
  { intros i Hi. destruct (lookup_lt_is_Some_2 args i) as [arg Harg]; [lia|].
    exists arg. split; [eapply list_elem_of_lookup_2; eauto|].
    now apply dumpArg_lookup. }
  assert (H0 : (0 < k)%nat → ∃ arg, arg ∈ args ∧ dumpArg dumpValue_rec args 0 = dumpValue_rec arg) by auto.
  assert (H1 : (1 < k)%nat → ∃ arg, arg ∈ args ∧ dumpArg dumpValue_rec args 1 = dumpValue_rec arg) by auto.
  assert (H2 : (2 < k)%nat → ∃ arg, arg ∈ args ∧ dumpArg dumpValue_rec args 2 = dumpValue_rec arg) by auto.
  clear Harg.
  apply Nat.eqb_eq in Hlen.
  destruct op; injection Harity as <- || discriminate Harity;
    cbn [dumpRValueOperator]; unfold dumpBinaryRValueOperator;
    rewrite Hlen, ASSERT_PRECONDITION_true;
    try (destruct H0 as (a0 & Hin0 & ->); [lia|]);
    try (destruct H1 as (a1 & Hin1 & ->); [lia|]);
    try (destruct H2 as (a2 & Hin2 & ->); [lia|]);
    (split;
     [ repeat apply panicFromArgs_andThen;
       auto using panicFromArgs_write, panicFromArgs_arg
     | intros Hargs; repeat apply Ok_andThen;
       auto; unfold write; eauto ]).
Qed.

(** C4. An evaluable rvalue that applies an operator of fixed arity [k]:
    with a number of arguments other than [k] the expression emitter stops
    with a precondition panic, whatever the arguments are; with exactly [k]
    arguments the arity check lets it through, that is, a panic can only be
    the panic of the emission of one of the arguments, and when all the
    arguments are emitted the operator is emitted too. *)
Theorem operator_arity_checked (fuel : nat) (pack : PackFromGlsl)
    (function : FunctionDefinition) (rValueId : RValueId)
    (op : RValueOperator) (args : list ValueId) (k : nat) :
  rValueId ≠ 0 →
  rValues pack !! rValueId
    = Some (Evaluable {| evaluable_op := OpOperator op;
                         evaluable_args := args |}) →
  arity op = Some k →
  (length args ≠ k →
     ∃ reason, dumpRValue (S fuel) pack function rValueId
               = Abort (PreconditionPanic reason))
  ∧ (length args = k →
       (∀ panic, dumpRValue (S fuel) pack function rValueId = Abort panic →
          ∃ arg, arg ∈ args ∧ dumpValue fuel pack function arg = Abort panic)
       ∧ ((∀ arg, arg ∈ args → ∃ text, dumpValue fuel pack function arg = Ok text) →
          ∃ text, dumpRValue (S fuel) pack function rValueId = Ok text)).
Proof.
  intros Hid Hlookup Harity.
  rewrite (dumpRValue_resolved _ _ _ _ _ Hid Hlookup).
  cbn [evaluable_op evaluable_args]. cbv zeta. split.
  - now apply dumpRValueOperator_arity_mismatch.
  - intros Hlen.
    destruct (dumpRValueOperator_arity_match (dumpValue fuel pack function)
                op args k Harity Hlen) as [Hpanic Hok].
    split; [exact Hpanic|exact Hok].
Qed.

(** ** Function names and signatures *)

(** What [dumpFunctionName] keeps of a stored name: the part before the first
    opening parenthesis, or all of it when there is none. *)
Lemma substr0_find_parenthesis (name : string) :
  let printed := substr0 name (find "("%char name) in
  ∃ rest,
    name = printed +:+ rest
    ∧ contains "("%char printed = false
    ∧ (rest = "" ∨ ∃ rest', rest = String "("%char rest')
    ∧ (contains "("%char name = false → printed = name).
Proof.
  induction name as [|a name IH]; cbn [find].
  - exists "". repeat split; auto.
  - destruct (Ascii.eqb a "(") eqn:Ha.
    + apply Ascii.eqb_eq in Ha as ->. exists (String "(" name).
      repeat split; [right; eauto | cbn; discriminate].
    + destruct IH as (rest & Hname & Hnone & Hrest & Hall).
      exists rest. destruct (find "(" name) as [n|]; cbn in *.
      * rewrite Ha. cbn. repeat split; auto.
        -- change (String a name = String a (take_chars n name +:+ rest)).
           now f_equal.
        -- intros H. f_equal. auto.
      * rewrite Ha. cbn. repeat split; auto.
        change (String a name = String a (name +:+ rest)). now f_equal.
Qed.

Lemma dumpParameters_rest pack function parameters texts :
  Forall2 (parameterText pack function) parameters texts →
  dumpParameters pack function false parameters
    = Ok (foldr (λ text acc, ", " +:+ text +:+ acc) "" texts).
Proof.
  induction 1 as [|parameter text parameters texts Htext _ IH]; [reflexivity|].
  destruct Htext as (Hid & localSymbol & type & Hfind & Htype & ->).
  cbn [dumpParameters foldr]. rewrite IH. unfold dumpLocalSymbol.
  apply N.eqb_neq in Hid. rewrite Hid, Hfind.
  rewrite bool_decide_true by eauto. rewrite Htype. cbn.
  now rewrite !string_app_assoc.
Qed.

Lemma concat_cons (sep text : string) (texts : list string) :
  String.concat sep (text :: texts)
    = text +:+ foldr (λ t acc, sep +:+ t +:+ acc) "" texts.
Proof.
  revert text. induction texts as [|t texts IH]; intros text.
  - cbn. now rewrite string_app_empty_r.
  - change (String.concat sep (text :: t :: texts))
      with (text +:+ sep +:+ String.concat sep (t :: texts)).
    now rewrite IH.
Qed.

Lemma dumpParameters_resolved pack function parameters texts :
  Forall2 (parameterText pack function) parameters texts →
  dumpParameters pack function true parameters
    = Ok (String.concat ", " texts).
Proof.
  destruct 1 as [|parameter text parameters texts Htext Hrest]; [reflexivity|].
  destruct Htext as (Hid & localSymbol & type & Hfind & Htype & ->).
  cbn [dumpParameters]. rewrite (dumpParameters_rest _ _ _ _ Hrest).
  unfold dumpLocalSymbol.
  apply N.eqb_neq in Hid. rewrite Hid, Hfind.
  rewrite bool_decide_true by eauto. rewrite Htype, concat_cons. cbn.
  now rewrite !string_app_assoc.
Qed.

(** The signature that opens both the prototype and the definition of a
    function. *)
Lemma dumpFunction_resolved fuel pack functionId dumpBody function
    returnType name parameters :
  functionDefinitions pack !! functionId = Some function →
  dumpType pack (function_returnType function) = Ok returnType →
  functionNames pack !! function_name function = Some name →
  dumpParameters pack function true (function_parameters function)
    = Ok parameters →
  dumpFunction fuel pack functionId dumpBody =
    (Ok (returnType +:+ " " +:+ substr0 name (find "("%char name)
           +:+ "(" +:+ parameters +:+ ")") ;;
     if dumpBody then
       write " {" ;; write LF ;;
       forEach (dumpLocalDeclaration pack (parameterSymbolIdsOf function))
         (function_localSymbols function) ;;
       dumpBlock fuel pack function (function_body function) 1 ;;
       write "}" ;; write LF
     else write ";" ;; write LF).
Proof.
  intros Hdef Htype Hname Hparameters. unfold dumpFunction, dumpFunctionName.
  rewrite Hdef, Htype, Hname, Hparameters.
  rewrite bool_decide_true by eauto. rewrite andb_false_r.
  rewrite ASSERT_PRECONDITION_true. unfold write.
  rewrite !andThen_Ok_Ok, !string_app_assoc. reflexivity.
Qed.

(** C9. Wherever the name of a function is emitted, only the part of the
    stored name before its first opening parenthesis is printed, and all of
    the name when it has no parenthesis: by [dumpFunctionName] itself, in a
    call expression, in a prototype and in the header of a definition. *)
Theorem function_name_printed_up_to_parenthesis (pack : PackFromGlsl)
    (functionId : FunctionId) (name : string) :
  functionNames pack !! functionId = Some name →
  ∃ printed rest,
    (name = printed +:+ rest
     ∧ contains "("%char printed = false
     ∧ (rest = "" ∨ ∃ rest', rest = String "("%char rest')
     ∧ (contains "("%char name = false → printed = name))
    ∧ dumpFunctionName pack functionId = Ok printed
    ∧ (∀ dumpValue_rec args arguments,
         dumpCallArgs dumpValue_rec true args = Ok arguments →
         dumpRValueFunctionCall dumpValue_rec pack functionId args
           = Ok (printed +:+ "(" +:+ arguments +:+ ")"))
    ∧ (∀ fuel definitionId function returnType parameters,
         functionDefinitions pack !! definitionId = Some function →
         function_name function = functionId →
         dumpType pack (function_returnType function) = Ok returnType →
         dumpParameters pack function true (function_parameters function)
           = Ok parameters →
         dumpFunction fuel pack definitionId false
           = Ok (returnType +:+ " " +:+ printed +:+ "(" +:+ parameters
                   +:+ ");" +:+ LF)
         ∧ ∀ declarations body,
             forEach (dumpLocalDeclaration pack (parameterSymbolIdsOf function))
               (function_localSymbols function) = Ok declarations →
             dumpBlock fuel pack function (function_body function) 1
               = Ok body →
             dumpFunction fuel pack definitionId true
               = Ok (returnType +:+ " " +:+ printed +:+ "(" +:+ parameters
                       +:+ ") {" +:+ LF +:+ declarations +:+ body
                       +:+ "}" +:+ LF)).
Proof.
  intros Hname.
  destruct (substr0_find_parenthesis name) as (rest & Hsplit).
  exists (substr0 name (find "("%char name)), rest.
  split; [exact Hsplit|]. split; [|split].
  - unfold dumpFunctionName. now rewrite Hname.
  - intros dv args arguments Hargs.
    unfold dumpRValueFunctionCall, dumpFunctionName. now rewrite Hname, Hargs.
  - intros fuel definitionId function returnType parameters
      Hdef <- Htype Hparameters. split.
    + rewrite (dumpFunction_resolved _ _ _ _ _ _ _ _ Hdef Htype Hname Hparameters).
      cbn. now rewrite !string_app_assoc.
    + intros declarations body Hdeclarations Hbody.
      rewrite (dumpFunction_resolved _ _ _ _ _ _ _ _ Hdef Htype Hname Hparameters).
      rewrite Hdeclarations, Hbody. cbn. now rewrite !string_app_assoc.
Qed.

(** C6. In the prototype pass, a function handle without an entry in the
    table of definitions contributes nothing, so the pass reads as if the
    handle were not listed; a handle with a definition whose types, name and
    parameters resolve contributes exactly the prototype: return type, space,
    name, the parameters as [type name] separated by comma and space inside
    parentheses, then a semicolon and a line feed. *)
Theorem prototype_pass_entry (fuel : nat) (pack : PackFromGlsl)
    (functionId : FunctionId) :
  (functionDefinitions pack !! functionId = None →
     dumpFunction fuel pack functionId false = Ok ""
     ∧ ∀ before after,
         forEach (λ id, dumpFunction fuel pack id false)
           (before ++ functionId :: after)
         = forEach (λ id, dumpFunction fuel pack id false) (before ++ after))
  ∧ (∀ function returnType name parameters,
       functionDefinitions pack !! functionId = Some function →
       dumpType pack (function_returnType function) = Ok returnType →
       functionNames pack !! function_name function = Some name →
       Forall2 (parameterText pack function)
         (function_parameters function) parameters →
       dumpFunction fuel pack functionId false
         = Ok (returnType +:+ " " +:+ substr0 name (find "("%char name)
                 +:+ "(" +:+ String.concat ", " parameters +:+ ");" +:+ LF)).
Proof.
  split.
  - intros Hnone.
    assert (Hskip : dumpFunction fuel pack functionId false = Ok "").
    { unfold dumpFunction. rewrite Hnone.
      rewrite bool_decide_false by (intros [? [=]]). reflexivity. }
    split; [exact Hskip|]. intros before after.
    rewrite !forEach_app. cbn [forEach]. now rewrite Hskip, andThen_empty_l.
  - intros function returnType name parameters Hdef Htype Hname Hparameters.
    rewrite (dumpFunction_resolved _ _ _ _ _ _ _ _ Hdef Htype Hname
               (dumpParameters_resolved _ _ _ _ Hparameters)).
    cbn. now rewrite !string_app_assoc.
Qed.

(** ** Statements *)

Lemma dumpBlock_resolved fuel pack function blockId depth statements :
  statementBlocks pack !! blockId = Some statements →
  dumpBlock (S fuel) pack function blockId depth
    = forEach
        (dumpStatement pack function (dumpRValue fuel pack function)
           (dumpBlock fuel pack function) depth)
        statements.
Proof.
  intros Hblock. cbn [dumpBlock]. rewrite Hblock.
  rewrite bool_decide_true by eauto. now rewrite ASSERT_PRECONDITION_true.
Qed.

(** The text of a block around one of its statements. *)
Lemma dumpBlock_around fuel pack function blockId depth
    before statement after (p s q : string) :
  let emit :=
    dumpStatement pack function (dumpRValue fuel pack function)
      (dumpBlock fuel pack function) depth in
  statementBlocks pack !! blockId = Some (before ++ statement :: after) →
  forEach emit before = Ok p →
  emit statement = Ok s →
  forEach emit after = Ok q →
  dumpBlock (S fuel) pack function blockId depth = Ok (p +:+ s +:+ q).
Proof.
  intros emit Hblock Hp Hs Hq.
  rewrite (dumpBlock_resolved _ _ _ _ _ _ Hblock), forEach_app.
  cbn [forEach]. fold emit. now rewrite Hp, Hs, Hq.
Qed.

Lemma indentLoop_acc (n : nat) (acc : string) :
  indentLoop n acc = acc +:+ indentation n.
Proof.
  revert acc. induction n as [|n IH]; intros acc; cbn [indentLoop indentation].
  - now rewrite string_app_empty_r.
  - now rewrite IH, string_app_assoc.
Qed.

Lemma indentation_snoc (n : nat) :
  indentation n +:+ kIndentAmount = indentation (S n).
Proof.
  induction n as [|n IH]; [reflexivity|].
  cbn [indentation]. now rewrite string_app_assoc, IH.
Qed.

Lemma indentMinusOneOf_indentation (depth : Z) :
  indentMinusOneOf depth = indentation (Z.to_nat (depth - 1)).
Proof. unfold indentMinusOneOf. now rewrite indentLoop_acc. Qed.

Lemma indentOf_indentation (depth : Z) :
  indentOf depth = indentation (Z.to_nat depth).
Proof.
  unfold indentOf. rewrite indentMinusOneOf_indentation.
  destruct (0 <? depth)%Z eqn:Hdepth.
  - apply Z.ltb_lt in Hdepth. rewrite indentation_snoc. f_equal. lia.
  - apply Z.ltb_ge in Hdepth. f_equal. lia.
Qed.

Lemma shapes_differ_after (indent a b : string) :
  a ≠ b → indent +:+ a ≠ indent +:+ b.
Proof. intros Hab Heq. apply Hab. now apply (inj (String.app indent)). Qed.

(** C5. A loop statement inside a block produces one of three shapes, chosen
    by [testFirst] and by the presence of [terminal]: [for (; cond; terminal)]
    with an empty initializer and the terminal as a bare expression when the
    test comes first and a terminal is present, [while (cond)] when the test
    comes first and there is no terminal, and [do ... while (cond);] when the
    test comes last.  The three shapes are different texts. *)
Theorem loop_shapes (fuel : nat) (pack : PackFromGlsl)
    (function : FunctionDefinition) (blockId : StatementBlockId) (depth : Z)
    (before after : list Statement) (loopStatement : LoopStatement)
    (p q cond terminal body : string) :
  let emit :=
    dumpStatement pack function (dumpRValue fuel pack function)
      (dumpBlock fuel pack function) depth in
  statementBlocks pack !! blockId
    = Some (before ++ StatementLoop loopStatement :: after) →
  forEach emit before = Ok p →
  forEach emit after = Ok q →
  dumpValue fuel pack function (loop_condition loopStatement) = Ok cond →
  (∀ terminalId, loop_testFirst loopStatement = true →
     loop_terminal loopStatement = Some terminalId →
     dumpRValue fuel pack function terminalId = Ok terminal) →
  dumpBlock fuel pack function (loop_body loopStatement) (depth + 1)
    = Ok body →
  dumpBlock (S fuel) pack function blockId depth
    = Ok (p +:+
          match loop_testFirst loopStatement, loop_terminal loopStatement with
          | true, Some _ => forShape (indentOf depth) cond terminal body
          | true, None => whileShape (indentOf depth) cond body
          | false, _ => doWhileShape (indentOf depth) cond body
          end +:+ q)
  ∧ (∀ indent c t b c' b',
       forShape indent c t b ≠ whileShape indent c' b'
       ∧ forShape indent c t b ≠ doWhileShape indent c' b'
       ∧ whileShape indent c b ≠ doWhileShape indent c' b').
Proof.
  intros emit Hblock Hp Hq Hcond Hterminal Hbody. split.
  - apply (dumpBlock_around _ _ _ _ _ _ _ _ _ _ _ Hblock Hp); [|exact Hq].
    unfold dumpStatement. unfold dumpValue in Hcond. rewrite Hcond, Hbody.
    destruct (loop_testFirst loopStatement);
      [destruct (loop_terminal loopStatement) as [terminalId|]|].
    + rewrite (Hterminal terminalId eq_refl eq_refl).
      cbn. unfold forShape. now rewrite ?string_app_assoc.
    + cbn. unfold whileShape. now rewrite ?string_app_assoc.
    + cbn. unfold doWhileShape. now rewrite ?string_app_assoc.
  - intros. unfold forShape, whileShape, doWhileShape.
    repeat split; apply shapes_differ_after; discriminate.
Qed.

(** How the text of a statement opens, at any depth. *)
Lemma dumpStatement_opening pack function dr db depth statement text :
  dumpStatement pack function dr db depth statement = Ok text →
  match statementOpening statement with
  | Some opening =>
      ∃ rest,
        text = (if isCaseOrDefault statement then indentMinusOneOf depth
                else indentOf depth) +:+ opening +:+ rest
  | None =>
      ∃ expression, text = indentOf depth +:+ expression +:+ ";" +:+ LF
  end.
Proof.
  unfold dumpStatement.
  generalize (indentOf depth), (indentMinusOneOf depth).
  intros indent indentMinusOne.
  destruct statement as [rValueId|[c t e]|[c b]|[op operand]|[c t first b]];
    cbn [statementOpening isCaseOrDefault if_condition if_thenBlock
         if_elseBlock switch_condition switch_body branch_op branch_operand
         loop_condition loop_terminal loop_testFirst loop_body];
    unfold write.
  - intros H.
    apply andThen_Ok_inv in H as (s & r & [= <-] & H & ->).
    apply andThen_Ok_inv in H as (expression & r' & _ & [= <-] & ->).
    now exists expression.
  - rewrite !andThen_Ok_Ok. intros H.
    apply andThen_Ok_inv in H as (s & rest & [= <-] & _ & ->).
    exists rest. now rewrite !string_app_assoc.
  - rewrite !andThen_Ok_Ok. intros H.
    apply andThen_Ok_inv in H as (s & rest & [= <-] & _ & ->).
    exists rest. now rewrite !string_app_assoc.
  - intros H. apply andThen_Ok_inv in H as (s & rest & H & _ & ->).
    exists rest. destruct op; injection H as <-;
      now rewrite !string_app_assoc.
  - destruct first; [destruct t as [t|]|];
      rewrite ?andThen_assoc, !andThen_Ok_Ok; intros H;
      apply andThen_Ok_inv in H as (s & rest & [= <-] & _ & ->);
      rewrite !string_app_assoc; eexists; reflexivity.
Qed.

(** C7 (amended). In a block emitted at a depth of at least 1, the
    indentation of the block is [depth] units and is the indentation used for
    Case and Default followed by one more unit: Case and Default statements
    open with their keyword after [depth - 1] units, every other statement
    opens after [depth] units. *)
Theorem case_default_dedented (fuel : nat) (pack : PackFromGlsl)
    (function : FunctionDefinition) (blockId : StatementBlockId) (depth : Z)
    (statements : list Statement) :
  (1 ≤ depth)%Z →
  statementBlocks pack !! blockId = Some statements →
  let emit :=
    dumpStatement pack function (dumpRValue fuel pack function)
      (dumpBlock fuel pack function) depth in
  let dedented := indentation (Z.to_nat depth - 1) in
  let indent := indentation (Z.to_nat depth) in
  indent = dedented +:+ kIndentAmount
  ∧ dumpBlock (S fuel) pack function blockId depth = forEach emit statements
  ∧ ∀ statement text,
      statement ∈ statements →
      emit statement = Ok text →
      match statementOpening statement with
      | Some opening =>
          ∃ rest,
            text = (if isCaseOrDefault statement then dedented else indent)
                     +:+ opening +:+ rest
      | None =>
          ∃ expression, text = indent +:+ expression +:+ ";" +:+ LF
      end.
Proof.
  intros Hdepth Hblock emit dedented indent.
  assert (Hminus : indentMinusOneOf depth = dedented).
  { rewrite indentMinusOneOf_indentation. unfold dedented. f_equal. lia. }
  assert (Hindent : indentOf depth = indent) by apply indentOf_indentation.
  split; [|split].
  - unfold indent, dedented. rewrite indentation_snoc. f_equal. lia.
  - now apply dumpBlock_resolved.
  - intros statement text _ Htext.
    apply dumpStatement_opening in Htext. now rewrite Hminus, Hindent in Htext.
Qed.

(** C2 (amended). A block that holds one If statement whose condition is
    LogicalNot of the local symbol named x, whose then-block holds one Return
    of a literal rvalue and which has no else-block is emitted at depth 0 as
    [if (!(x)) {], [  return LITERAL;], [}], one per line: the literal is
    printed as the placeholder LITERAL, whatever its value. *)
Theorem if_not_return_literal_text (fuel : nat) (pack : PackFromGlsl)
    (function : FunctionDefinition)
    (blockId thenBlock : StatementBlockId) (conditionId literalId : RValueId)
    (x : LocalSymbolId) (localSymbol : LocalSymbol) (literal : LiteralRValue) :
  statementBlocks pack !! blockId
    = Some [StatementIf {| if_condition := ValueRValue conditionId;
                           if_thenBlock := thenBlock;
                           if_elseBlock := None |}] →
  conditionId ≠ 0 →
  rValues pack !! conditionId
    = Some (Evaluable {| evaluable_op := OpOperator LogicalNot;
                         evaluable_args := [ValueLocalSymbol x] |}) →
  x ≠ 0 →
  localSymbols_find (function_localSymbols function) x = Some localSymbol →
  localSymbol_name localSymbol = "x" →
  statementBlocks pack !! thenBlock
    = Some [StatementBranch {| branch_op := Return;
                               branch_operand := Some (ValueRValue literalId) |}] →
  literalId ≠ 0 →
  rValues pack !! literalId = Some (Literal literal) →
  dumpBlock (S (S (S fuel))) pack function blockId 0
    = Ok ("if (!(x)) {" +:+ LF +:+ "  return LITERAL;" +:+ LF +:+ "}" +:+ LF).
Proof.
  intros Hblock Hcondition Hnot Hx Hfind Hname Hthen Hliteral Hlit.
  rewrite (dumpBlock_resolved _ _ _ _ _ _ Hblock).
  cbn [forEach dumpStatement if_condition if_thenBlock if_elseBlock
       dumpValueWith].
  rewrite (dumpRValue_resolved _ _ _ _ _ Hcondition Hnot).
  rewrite (dumpBlock_resolved _ _ _ _ _ _ Hthen).
  cbn [forEach dumpStatement branch_op branch_operand dumpValueWith
       evaluable_op evaluable_args].
  rewrite (dumpRValue_resolved _ _ _ _ _ Hliteral Hlit).
  unfold dumpRValueOperator, dumpArg, dumpValue. cbn [lookup list_lookup dumpValueWith].
  unfold dumpLocalSymbol. apply N.eqb_neq in Hx. rewrite Hx, Hfind, Hname.
  rewrite bool_decide_true by eauto. reflexivity.
Qed.

(** ** CappedArray *)

(** C10. In a CappedArray of size [n] with [0 < n < CAPACITY], [back]
    returns the element in slot [n] of the array.  The element inserted last
    is in slot [n - 1]; slot [n] is one past it and still holds what it held
    before that insertion, so what [back] returns does not depend on the
    element inserted last, and differs from it whenever slot [n] held
    something else. *)
Theorem back_reads_past_last_inserted {T : Type} (CAPACITY : N)
    (c : CappedArray.t (T := T)) :
  CappedArray.wellFormed CAPACITY c →
  0 < CappedArray.size c < CAPACITY →
  (∃ element,
     CappedArray.back c = Some element
     ∧ CappedArray.at_ c (CappedArray.size c) = Some element)
  ∧ ∀ previous item,
      CappedArray.wellFormed CAPACITY previous →
      CappedArray.insert CAPACITY item previous = Some c →
      CappedArray.at_ c (CappedArray.size c - 1) = Some item
      ∧ CappedArray.back c = CappedArray.at_ previous (CappedArray.size c)
      ∧ (CappedArray.at_ previous (CappedArray.size c) ≠ Some item →
         CappedArray.back c ≠ Some item).
Proof.
  unfold CappedArray.wellFormed, CappedArray.size, CappedArray.back,
    CappedArray.at_, CappedArray.insert.
  intros Hwf [Hpos Hlt].
  assert (Hback : (0 <? CappedArray.mInd c) = true) by now apply N.ltb_lt.
  rewrite Hback. split.
  - destruct (lookup_lt_is_Some_2 (CappedArray.mArray c)
                (N.to_nat (CappedArray.mInd c))) as [element Helement]; [lia|].
    exists element. now rewrite Helement.
  - intros previous item Hwf' Hinsert.
    destruct (CappedArray.mInd previous <? CAPACITY) eqn:Hroom; [|discriminate].
    apply N.ltb_lt in Hroom. injection Hinsert as <-. cbn in *.
    replace (N.to_nat (CappedArray.mInd previous + 1 - 1))
      with (N.to_nat (CappedArray.mInd previous)) by lia.
    assert (Hslot :
      <[N.to_nat (CappedArray.mInd previous) := item]>
        (CappedArray.mArray previous)
        !! N.to_nat (CappedArray.mInd previous + 1)
      = CappedArray.mArray previous
          !! N.to_nat (CappedArray.mInd previous + 1))
      by (apply list_lookup_insert_ne; lia).
    split; [|split].
    + apply list_lookup_insert_eq. lia.
    + exact Hslot.
    + intros Hother. now rewrite Hslot.
Qed.

(** ** Fuel and termination

    Two facts about the emitters have the same shape: more fuel does not
    change an outcome other than [OutOfFuel], and an emitter stays within its
    fuel when the emitters it calls do.  Both are instances of a relation
    [P] that the sequencing of steps preserves. *)

(** The emitters that do not recurse never run out of fuel. *)

Lemma withinFuel_andThen (a b : Emitted) :
  withinFuel a → withinFuel b → withinFuel (a ;; b).
Proof. destruct a, b; cbn; unfold withinFuel; congruence. Qed.

Lemma withinFuel_forEach {A} (f : A → Emitted) (items : list A) :
  (∀ x, x ∈ items → withinFuel (f x)) → withinFuel (forEach f items).
Proof.
  induction items as [|x items IH]; intros H; cbn [forEach]; [discriminate|].
  apply withinFuel_andThen; [apply H; set_solver|apply IH; intros; apply H; set_solver].
Qed.

Lemma withinFuel_ASSERT condition reason :
  withinFuel (ASSERT_PRECONDITION condition reason).
Proof. now destruct condition. Qed.

Lemma withinFuel_Ok text : withinFuel (Ok text).
Proof. discriminate. Qed.

Lemma withinFuel_Abort panic : withinFuel (Abort panic).
Proof. discriminate. Qed.

Create HintDb fuel.
#[local] Hint Resolve withinFuel_andThen withinFuel_ASSERT withinFuel_Ok
  withinFuel_Abort : fuel.
#[local] Hint Extern 1 (withinFuel (write _)) => apply withinFuel_Ok : fuel.

Lemma withinFuel_dumpFunctionName pack functionId :
  withinFuel (dumpFunctionName pack functionId).
Proof. unfold dumpFunctionName. destruct (_ !! _); auto with fuel. Qed.

Lemma withinFuel_dumpType pack typeId : withinFuel (dumpType pack typeId).
Proof.
  unfold dumpType. apply withinFuel_andThen; [auto with fuel|].
  destruct (_ !! _) as [type|]; [|auto with fuel].
  apply withinFuel_andThen; [destruct (String.eqb _ _); auto with fuel|].
  apply withinFuel_andThen; [auto with fuel|].
  apply withinFuel_forEach. intros; auto 6 with fuel.
Qed.

Lemma withinFuel_dumpGlobalSymbol pack globalSymbolId :
  withinFuel (dumpGlobalSymbol pack globalSymbolId).
Proof.
  unfold dumpGlobalSymbol. destruct (_ =? _); [auto with fuel|].
  apply withinFuel_andThen; [auto with fuel|].
  destruct (_ !! _); auto with fuel.
Qed.

#[local] Hint Resolve withinFuel_dumpFunctionName withinFuel_dumpType
  withinFuel_dumpGlobalSymbol : fuel.

Lemma withinFuel_dumpLocalSymbol pack function localSymbolId dumpType_ :
  withinFuel (dumpLocalSymbol pack function localSymbolId dumpType_).
Proof.
  unfold dumpLocalSymbol. destruct (_ =? _); [auto with fuel|].
  apply withinFuel_andThen; [auto with fuel|].
  destruct (localSymbols_find _ _); [|auto with fuel].
  apply withinFuel_andThen; [|auto with fuel].
  destruct dumpType_; auto with fuel.
Qed.

#[local] Hint Resolve withinFuel_dumpLocalSymbol : fuel.

Lemma withinFuel_dumpParameters pack function firstParameter parameters :
  withinFuel (dumpParameters pack function firstParameter parameters).
Proof.
  revert firstParameter.
  induction parameters as [|parameter rest IH]; intros firstParameter;
    cbn [dumpParameters]; [auto with fuel|].
  apply withinFuel_andThen; [destruct firstParameter; auto with fuel|].
  auto with fuel.
Qed.

Lemma withinFuel_dumpLocalDeclaration pack parameterSymbolIds localSymbol :
  withinFuel (dumpLocalDeclaration pack parameterSymbolIds localSymbol).
Proof.
  unfold dumpLocalDeclaration. destruct (bool_decide _); auto 10 with fuel.
Qed.

Section Compositional.

Variable P : Emitted → Emitted → Prop.
Hypothesis P_same : ∀ r, withinFuel r → P r r.
Hypothesis P_andThen :
  ∀ a a' b b', P a a' → P b b' → P (a ;; b) (a' ;; b').

(** Steps that do not recurse are related to themselves; a sequence of
    steps is related when its steps are. *)
Ltac compat_steps :=
  repeat first
    [ assumption
    | apply P_same; solve [auto 10 with fuel]
    | apply P_andThen ].

Lemma compat_forEach {A} (f g : A → Emitted) (items : list A) :
  (∀ x, x ∈ items → P (f x) (g x)) →
  P (forEach f items) (forEach g items).
Proof.
  induction items as [|x items IH]; intros H; cbn [forEach].
  - compat_steps.
  - apply P_andThen; [apply H; set_solver|apply IH; intros; apply H; set_solver].
Qed.

Lemma compat_dumpArg dv dv' (args : list ValueId) i :
  (∀ arg, arg ∈ args → P (dv arg) (dv' arg)) →
  P (dumpArg dv args i) (dumpArg dv' args i).
Proof.
  intros H. unfold dumpArg. destruct (args !! i) as [arg|] eqn:Harg.
  - apply H. eapply list_elem_of_lookup_2; eauto.
  - compat_steps.
Qed.

Lemma compat_dumpBinaryRValueOperator dv dv' args op opString :
  (∀ arg, arg ∈ args → P (dv arg) (dv' arg)) →
  P (dumpBinaryRValueOperator dv op args opString)
    (dumpBinaryRValueOperator dv' op args opString).
Proof.
  intros H. pose proof (compat_dumpArg dv dv' args 0 H).
  pose proof (compat_dumpArg dv dv' args 1 H).
  unfold dumpBinaryRValueOperator. compat_steps.
Qed.

Lemma compat_dumpRValueOperator dv dv' args op :
  (∀ arg, arg ∈ args → P (dv arg) (dv' arg)) →
  P (dumpRValueOperator dv op args) (dumpRValueOperator dv' op args).
Proof.
  intros H. pose proof (compat_dumpArg dv dv' args 0 H).
  pose proof (compat_dumpArg dv dv' args 1 H).
  pose proof (compat_dumpArg dv dv' args 2 H).
  destruct op; cbn [dumpRValueOperator];
    try (apply compat_dumpBinaryRValueOperator; exact H);
    compat_steps.
  apply compat_forEach. intros arg Harg. specialize (H arg Harg).
  compat_steps.
Qed.

Lemma compat_dumpCallArgs dv dv' args firstArg :
  (∀ arg, arg ∈ args → P (dv arg) (dv' arg)) →
  P (dumpCallArgs dv firstArg args) (dumpCallArgs dv' firstArg args).
Proof.
  revert firstArg.
  induction args as [|arg rest IH]; intros firstArg H; cbn [dumpCallArgs].
  - compat_steps.
  - apply P_andThen; [apply P_same; destruct firstArg; auto with fuel|].
    apply P_andThen; [apply H; set_solver|].
    apply IH. intros; apply H; set_solver.
Qed.

Lemma compat_dumpRValueFunctionCall dv dv' pack functionId args :
  (∀ arg, arg ∈ args → P (dv arg) (dv' arg)) →
  P (dumpRValueFunctionCall dv pack functionId args)
    (dumpRValueFunctionCall dv' pack functionId args).
Proof.
  intros H. pose proof (compat_dumpCallArgs dv dv' args true H).
  unfold dumpRValueFunctionCall. compat_steps.
Qed.

Lemma compat_dumpValueWith dr dr' pack function valueId :
  (∀ id, RValueNode id ∈ valueNodes valueId → P (dr id) (dr' id)) →
  P (dumpValueWith dr pack function valueId)
    (dumpValueWith dr' pack function valueId).
Proof.
  intros H. destruct valueId; cbn [dumpValueWith].
  - apply H. set_solver.
  - compat_steps.
  - compat_steps.
Qed.

(** One more level of an rvalue: the rvalues its entry refers to are
    related, so the rvalue is. *)
Lemma compat_dumpRValue fuel fuel' pack function rValueId :
  (∀ id, RValueNode id ∈ children pack (RValueNode rValueId) →
     P (dumpRValue fuel pack function id)
       (dumpRValue fuel' pack function id)) →
  P (dumpRValue (S fuel) pack function rValueId)
    (dumpRValue (S fuel') pack function rValueId).
Proof.
  intros H. cbn [dumpRValue children] in *.
  destruct (rValueId =? 0); [compat_steps|].
  apply P_andThen; [compat_steps|].
  destruct (rValues pack !! rValueId) as [[evaluable|literal]|];
    [|compat_steps..].
  assert (Hargs : ∀ arg, arg ∈ evaluable_args evaluable →
    P (dumpValueWith (dumpRValue fuel pack function) pack function arg)
      (dumpValueWith (dumpRValue fuel' pack function) pack function arg)).
  { intros arg Harg. apply compat_dumpValueWith. intros id Hid.
    apply H. cbn [rValueChildren]. apply list_elem_of_bind. eauto. }
  cbv zeta. destruct (evaluable_op evaluable).
  - now apply compat_dumpRValueOperator.
  - now apply compat_dumpRValueFunctionCall.
Qed.

Lemma compat_dumpStatement pack function dr dr' db db' depth statement :
  (∀ id, RValueNode id ∈ statementChildren statement → P (dr id) (dr' id)) →
  (∀ id d, BlockNode id ∈ statementChildren statement →
     P (db id d) (db' id d)) →
  P (dumpStatement pack function dr db depth statement)
    (dumpStatement pack function dr' db' depth statement).
Proof.
  intros Hr Hb.
  assert (Hv : ∀ valueId,
    (∀ id, RValueNode id ∈ valueNodes valueId →
       RValueNode id ∈ statementChildren statement) →
    P (dumpValueWith dr pack function valueId)
      (dumpValueWith dr' pack function valueId)).
  { intros valueId Hin. apply compat_dumpValueWith. auto. }
  unfold dumpStatement.
  generalize (indentOf depth), (indentMinusOneOf depth).
  intros indent indentMinusOne.
  destruct statement as [rValueId|[c t e]|[c b]|[op operand]|[c t first b]];
    cbn [statementChildren if_condition if_thenBlock
         if_elseBlock switch_condition switch_body branch_op branch_operand
         loop_condition loop_terminal loop_testFirst loop_body] in *.
  - assert (P (dr rValueId) (dr' rValueId)) by (apply Hr; set_solver).
    compat_steps.
  - assert (P (dumpValueWith dr pack function c)
              (dumpValueWith dr' pack function c))
      by (apply Hv; set_solver).
    assert (P (db t (depth + 1)%Z) (db' t (depth + 1)%Z))
      by (apply Hb; set_solver).
    destruct e as [e|].
    + assert (P (db e (depth + 1)%Z) (db' e (depth + 1)%Z))
        by (apply Hb; set_solver).
      compat_steps.
    + compat_steps.
  - assert (P (dumpValueWith dr pack function c)
              (dumpValueWith dr' pack function c))
      by (apply Hv; set_solver).
    assert (P (db b (depth + 1)%Z) (db' b (depth + 1)%Z))
      by (apply Hb; set_solver).
    compat_steps.
  - destruct operand as [operand|].
    + assert (P (dumpValueWith dr pack function operand)
                (dumpValueWith dr' pack function operand))
        by (apply Hv; set_solver).
      destruct op; compat_steps.
    + destruct op; compat_steps.
  - assert (P (dumpValueWith dr pack function c)
              (dumpValueWith dr' pack function c))
      by (apply Hv; set_solver).
    assert (P (db b (depth + 1)%Z) (db' b (depth + 1)%Z))
      by (apply Hb; set_solver).
    destruct first; [destruct t as [t|]|].
    + assert (P (dr t) (dr' t)) by (apply Hr; set_solver).
      compat_steps.
    + compat_steps.
    + compat_steps.
Qed.

(** One more level of a block. *)
Lemma compat_dumpBlock fuel fuel' pack function blockId depth :
  (∀ id, RValueNode id ∈ children pack (BlockNode blockId) →
     P (dumpRValue fuel pack function id)
       (dumpRValue fuel' pack function id)) →
  (∀ id d, BlockNode id ∈ children pack (BlockNode blockId) →
     P (dumpBlock fuel pack function id d)
       (dumpBlock fuel' pack function id d)) →
  P (dumpBlock (S fuel) pack function blockId depth)
    (dumpBlock (S fuel') pack function blockId depth).
Proof.
  intros Hr Hb. cbn [dumpBlock children] in *.
  apply P_andThen; [compat_steps|].
  destruct (statementBlocks pack !! blockId) as [statements|];
    [|compat_steps].
  apply compat_forEach. intros statement Hstatement.
  apply compat_dumpStatement.
  - intros id Hid. apply Hr. apply list_elem_of_bind. eauto.
  - intros id d Hid. apply Hb. apply list_elem_of_bind. eauto.
Qed.

Lemma compat_dumpFunction fuel fuel' pack functionId dumpBody :
  (∀ function,
     dumpBody = true →
     functionDefinitions pack !! functionId = Some function →
     P (dumpBlock fuel pack function (function_body function) 1)
       (dumpBlock fuel' pack function (function_body function) 1)) →
  P (dumpFunction fuel pack functionId dumpBody)
    (dumpFunction fuel' pack functionId dumpBody).
Proof.
  intros H. unfold dumpFunction.
  destruct (negb dumpBody && _); [compat_steps|].
  apply P_andThen; [compat_steps|].
  destruct (functionDefinitions pack !! functionId) as [function|];
    [|compat_steps].
  specialize (H function).
  assert (withinFuel
    (forEach (dumpLocalDeclaration pack (parameterSymbolIdsOf function))
       (function_localSymbols function)))
    by (apply withinFuel_forEach; intros;
        apply withinFuel_dumpLocalDeclaration).
  pose proof (withinFuel_dumpParameters pack function true
                (function_parameters function)).
  cbv zeta. destruct dumpBody.
  - specialize (H eq_refl eq_refl). compat_steps.
  - compat_steps.
Qed.

Lemma compat_toGlsl fuel fuel' pack :
  (∀ functionId function,
     functionId ∈ functionDefinitionOrder pack →
     functionDefinitions pack !! functionId = Some function →
     P (dumpBlock fuel pack function (function_body function) 1)
       (dumpBlock fuel' pack function (function_body function) 1)) →
  P (toGlsl fuel pack) (toGlsl fuel' pack).
Proof.
  intros H. unfold toGlsl. apply P_andThen.
  - apply compat_forEach. intros functionId _.
    apply compat_dumpFunction. discriminate.
  - apply compat_forEach. intros functionId Hin.
    apply compat_dumpFunction. eauto.
Qed.

End Compositional.

(** *** More fuel changes nothing but [OutOfFuel] *)

Lemma approximates_andThen a a' b b' :
  approximates a a' → approximates b b' → approximates (a ;; b) (a' ;; b').
Proof.
  intros [->| ->]; [now left|].
  intros [->| ->]; [|now right].
  destruct a'; [left|right..]; reflexivity.
Qed.

Lemma approximates_same r : withinFuel r → approximates r r.
Proof. now right. Qed.

Lemma approximates_trans a b c :
  approximates a b → approximates b c → approximates a c.
Proof. intros [->| ->]; [now left|auto]. Qed.

Lemma approximates_eq a b : approximates a b → withinFuel a → a = b.
Proof. now intros [->|]. Qed.

Lemma dumpRValue_fuel_S fuel pack function rValueId :
  approximates (dumpRValue fuel pack function rValueId)
    (dumpRValue (S fuel) pack function rValueId).
Proof.
  revert rValueId. induction fuel as [|fuel IH]; intros rValueId.
  - cbn [dumpRValue]. destruct (rValueId =? 0); [now right|now left].
  - apply (compat_dumpRValue approximates);
      auto using approximates_same, approximates_andThen.
Qed.

Lemma dumpBlock_fuel_S fuel pack function blockId depth :
  approximates (dumpBlock fuel pack function blockId depth)
    (dumpBlock (S fuel) pack function blockId depth).
Proof.
  revert blockId depth. induction fuel as [|fuel IH]; intros blockId depth.
  - cbn [dumpBlock]. destruct (statementBlocks pack !! blockId).
    + rewrite bool_decide_true by eauto. now left.
    + rewrite bool_decide_false by (intros [? [=]]). now right.
  - apply (compat_dumpBlock approximates);
      auto using approximates_same, approximates_andThen, dumpRValue_fuel_S.
Qed.

Lemma toGlsl_fuel_S fuel pack :
  approximates (toGlsl fuel pack) (toGlsl (S fuel) pack).
Proof.
  apply (compat_toGlsl approximates);
    auto using approximates_same, approximates_andThen, dumpBlock_fuel_S.
Qed.

Lemma dumpRValue_fuel_le fuel fuel' pack function rValueId :
  (fuel ≤ fuel')%nat →
  approximates (dumpRValue fuel pack function rValueId)
    (dumpRValue fuel' pack function rValueId).
Proof.
  induction 1 as [|fuel' _ IH].
  - destruct (dumpRValue fuel pack function rValueId); [right|right|left];
      reflexivity.
  - eapply approximates_trans; [exact IH|apply dumpRValue_fuel_S].
Qed.

Lemma dumpBlock_fuel_le fuel fuel' pack function blockId depth :
  (fuel ≤ fuel')%nat →
  approximates (dumpBlock fuel pack function blockId depth)
    (dumpBlock fuel' pack function blockId depth).
Proof.
  induction 1 as [|fuel' _ IH].
  - destruct (dumpBlock fuel pack function blockId depth); [right|right|left];
      reflexivity.
  - eapply approximates_trans; [exact IH|apply dumpBlock_fuel_S].
Qed.

Lemma toGlsl_fuel_le fuel fuel' pack :
  (fuel ≤ fuel')%nat → approximates (toGlsl fuel pack) (toGlsl fuel' pack).
Proof.
  induction 1 as [|fuel' _ IH].
  - destruct (toGlsl fuel pack); [right|right|left]; reflexivity.
  - eapply approximates_trans; [exact IH|apply toGlsl_fuel_S].
Qed.

(** *** Enough fuel for an acyclic pack *)

Lemma withinFuel_finished r : withinFuel r → finished r.
Proof. destruct r; [left|right|]; eauto. now intros []. Qed.

(** One more unit of fuel settles a node whose children are settled. *)
Lemma settled_step pack fuel node :
  (∀ child, child ∈ children pack node → settled pack fuel child) →
  settled pack (S fuel) node.
Proof.
  intros H. destruct node as [rValueId|blockId]; cbn [settled].
  - intros function.
    apply (compat_dumpRValue (λ r _, withinFuel r)) with (fuel' := fuel);
      auto using withinFuel_andThen.
    intros id Hid. apply (H _ Hid).
  - intros function depth.
    apply (compat_dumpBlock (λ r _, withinFuel r)) with (fuel' := fuel);
      auto using withinFuel_andThen.
    + intros id Hid. apply (H _ Hid).
    + intros id d Hid. apply (H _ Hid).
Qed.

Lemma settled_by_rank pack rank depth :
  nestingWithin pack rank depth →
  ∀ fuel node, (rank node < fuel)%nat → settled pack fuel node.
Proof.
  intros Hrank. induction fuel as [|fuel IH]; intros node Hnode; [lia|].
  apply settled_step. intros child Hchild. apply IH.
  destruct (Hrank node) as [_ Hchildren].
  rewrite Forall_forall in Hchildren. specialize (Hchildren child Hchild). lia.
Qed.

Lemma eventually_all {A} (Q : nat → A → Prop) (items : list A) :
  (∀ x, x ∈ items → ∃ n, ∀ fuel, (n ≤ fuel)%nat → Q fuel x) →
  ∃ n, ∀ fuel, (n ≤ fuel)%nat → ∀ x, x ∈ items → Q fuel x.
Proof.
  induction items as [|x items IH]; intros H.
  - exists 0%nat. intros fuel _ y Hy. inversion Hy.
  - destruct (H x) as [n Hn]; [set_solver|].
    destruct IH as [m Hm]; [intros; apply H; set_solver|].
    exists (n `max` m)%nat. intros fuel Hfuel y Hy.
    apply elem_of_cons in Hy as [->|Hy]; [apply Hn|apply Hm]; auto; lia.
Qed.

Lemma settled_eventually pack node :
  Acc (refs pack) node →
  ∃ n, ∀ fuel, (n ≤ fuel)%nat → settled pack fuel node.
Proof.
  induction 1 as [node _ IH].
  destruct (eventually_all (settled pack) (children pack node)) as [n Hn];
    [intros child Hchild; apply IH, Hchild|].
  exists (S n). intros [|fuel] Hfuel; [lia|].
  apply settled_step. intros child Hchild. apply Hn; [lia|exact Hchild].
Qed.

(** Fuel that settles the bodies of the functions to define is enough for
    the whole program, and more fuel gives the same outcome. *)
Lemma toGlsl_settled pack depth :
  (∀ functionId function,
     functionId ∈ functionDefinitionOrder pack →
     functionDefinitions pack !! functionId = Some function →
     settled pack depth (BlockNode (function_body function))) →
  finished (toGlsl depth pack)
  ∧ ∀ fuel, (depth ≤ fuel)%nat → toGlsl fuel pack = toGlsl depth pack.
Proof.
  intros H.
  assert (Hwithin : withinFuel (toGlsl depth pack)).
  { apply (compat_toGlsl (λ r _, withinFuel r)) with (fuel' := depth);
      auto using withinFuel_andThen.
    intros functionId function Hin Hdef. apply (H _ _ Hin Hdef). }
  split; [now apply withinFuel_finished|].
  intros fuel Hfuel. symmetry.
  apply approximates_eq; [now apply toGlsl_fuel_le|exact Hwithin].
Qed.

(** C8. On a pack whose reference graph of rvalues and statement blocks is
    acyclic, emitting the whole program terminates: some call depth is
    enough, and with it (or with any larger one) [toGlsl] ends with the
    complete text or with a panic.  When the nesting of the pack is at most
    [depth] levels deep, as witnessed by a numbering of the handles that
    decreases along every reference, the call depth [depth] is enough. *)
Theorem toGlsl_terminates (pack : PackFromGlsl) :
  acyclic pack →
  (∃ depth,
     finished (toGlsl depth pack)
     ∧ ∀ fuel, (depth ≤ fuel)%nat → toGlsl fuel pack = toGlsl depth pack)
  ∧ (∀ rank depth,
       nestingWithin pack rank depth →
       finished (toGlsl depth pack)
       ∧ ∀ fuel, (depth ≤ fuel)%nat → toGlsl fuel pack = toGlsl depth pack).
Proof.
  intros Hacyclic. split.
  - destruct (eventually_all
      (λ fuel functionId,
         ∀ function,
           functionDefinitions pack !! functionId = Some function →
           settled pack fuel (BlockNode (function_body function)))
      (functionDefinitionOrder pack)) as [depth Hdepth].
    { intros functionId _.
      destruct (functionDefinitions pack !! functionId) as [function|].
      - destruct (settled_eventually pack (BlockNode (function_body function)))
          as [n Hn]; [apply Hacyclic|].
        exists n. intros fuel Hfuel function' [= <-]. now apply Hn.
      - exists 0%nat. intros fuel _ function' [=]. }
    exists depth. apply toGlsl_settled.
    intros functionId function Hin Hdef.
    exact (Hdepth depth (Nat.le_refl _) functionId Hin function Hdef).
  - intros rank depth Hrank. apply toGlsl_settled.
    intros functionId function _ _.
    apply (settled_by_rank _ _ _ Hrank). apply Hrank.
Qed.

(** A numbering that decreases along every reference shows that the pack is
    acyclic. *)
Lemma nestingWithin_acyclic pack rank depth :
  nestingWithin pack rank depth → acyclic pack.
Proof.
  intros Hrank. apply (well_founded_lt_compat _ rank).
  intros child parent Hchild. destruct (Hrank parent) as [_ Hchildren].
  rewrite Forall_forall in Hchildren. now apply Hchildren.
Qed.

(** * The theorems at work on the sample *)

Lemma nestingWithin_tables pack rank depth :
  (∀ node, (rank node < depth)%nat) →
  map_Forall
    (λ id rValue,
       Forall (λ child, (rank child < rank (RValueNode id))%nat)
         (rValueChildren rValue))
    (rValues pack) →
  map_Forall
    (λ id statements,
       Forall (λ child, (rank child < rank (BlockNode id))%nat)
         (statements ≫= statementChildren))
    (statementBlocks pack) →
  nestingWithin pack rank depth.
Proof.
  intros Hdepth HrValues Hblocks parent. split; [apply Hdepth|].
  destruct parent as [id|id]; cbn [children].
  - destruct (rValues pack !! id) as [rValue|] eqn:Hid; [|constructor].
    apply (HrValues _ _ Hid).
  - destruct (statementBlocks pack !! id) as [statements|] eqn:Hid;
      [|constructor].
    apply (Hblocks _ _ Hid).
Qed.

Lemma samplePack_nesting : nestingWithin samplePack sampleRank 20.
Proof.
  apply nestingWithin_tables.
  - intros [id|id]; cbn [sampleRank]; lia.
  - apply (bool_decide_unpack _). vm_compute. exact I.
  - apply (bool_decide_unpack _). vm_compute. exact I.
Qed.

Lemma samplePack_acyclic : acyclic samplePack.
Proof. exact (nestingWithin_acyclic _ _ _ samplePack_nesting). Qed.

Lemma binary_operator_text_witness :
  dumpRValue 1 samplePack sampleFunction 1 = Ok "(a + b)".
Proof.
  apply (binary_operator_text 0 samplePack sampleFunction 1 Add
           (ValueLocalSymbol 1) (ValueLocalSymbol 2) "a" "b");
    [discriminate|reflexivity..].
Defined.

Lemma operator_arity_checked_witness :
  ∃ reason,
    dumpRValue 1 samplePack sampleFunction 7
      = Abort (PreconditionPanic reason).
Proof.
  apply (operator_arity_checked 0 samplePack sampleFunction 7 Negative [] 1);
    [discriminate|reflexivity|reflexivity|discriminate].
Defined.

Lemma loop_shapes_witness :
  dumpBlock 3 samplePack sampleFunction 4 0
    = Ok (forShape "" "(i < n)" "i++" "").
Proof.
  apply (loop_shapes 2 samplePack sampleFunction 4 0 [] [] sampleForLoop
           "" "" "(i < n)" "i++" "");
    [reflexivity|reflexivity|reflexivity|reflexivity
    |intros terminalId _ [= <-]; reflexivity|reflexivity].
Defined.

Lemma prototype_pass_entry_witness :
  dumpFunction 0 samplePack 12 false = Ok ""
  ∧ dumpFunction 0 samplePack 1 false
    = Ok ("float f(float a, float b);" +:+ LF).
Proof.
  split.
  - apply (prototype_pass_entry 0 samplePack 12). reflexivity.
  - apply (proj2 (prototype_pass_entry 0 samplePack 1) sampleFunction
             "float" "f(f1;f1;" ["float a"; "float b"]);
      [reflexivity..|].
    repeat constructor; try discriminate;
      eexists _, "float"; repeat split; reflexivity.
Defined.

Lemma function_name_printed_up_to_parenthesis_witness :
  ∃ printed rest,
    "f(f1;f1;" = printed +:+ rest
    ∧ dumpFunctionName samplePack 1 = Ok printed.
Proof.
  destruct (function_name_printed_up_to_parenthesis samplePack 1 "f(f1;f1;"
              eq_refl) as (printed & rest & (Hsplit & _) & Hname & _).
  exists printed, rest. split; assumption.
Defined.

Lemma case_default_dedented_witness :
  (∃ rest, "  case LITERAL:" +:+ LF = indentation 1 +:+ "case" +:+ rest)
  ∧ (∃ rest, "    break;" +:+ LF = indentation 2 +:+ "break" +:+ rest).
Proof.
  pose proof (case_default_dedented 1 samplePack sampleFunction 7 2 _
                ltac:(lia) eq_refl) as (_ & _ & H).
  split.
  - apply (H (StatementBranch
                {| branch_op := Case;
                   branch_operand := Some (ValueRValue 3) |})
             ("  case LITERAL:" +:+ LF)); [set_solver|reflexivity].
  - apply (H (StatementBranch
                {| branch_op := Break; branch_operand := None |})
             ("    break;" +:+ LF)); [set_solver|reflexivity].
Defined.

Lemma if_not_return_literal_text_witness :
  dumpBlock 3 samplePack sampleFunction 3 0
    = Ok ("if (!(x)) {" +:+ LF +:+ "  return LITERAL;" +:+ LF +:+ "}" +:+ LF).
Proof.
  apply (if_not_return_literal_text 0 samplePack sampleFunction 3 2 2 3 3
           {| localSymbol_type := 1; localSymbol_name := "x" |}
           {| literal_value := 1 |});
    solve [reflexivity | discriminate].
Defined.

Lemma toGlsl_terminates_witness :
  finished (toGlsl 20 samplePack)
  ∧ ∀ fuel, (20 ≤ fuel)%nat → toGlsl fuel samplePack = toGlsl 20 samplePack.
Proof.
  exact (proj2 (toGlsl_terminates samplePack samplePack_acyclic)
           sampleRank 20%nat samplePack_nesting).
Defined.

Lemma back_reads_past_last_inserted_witness :
  CappedArray.insert 4 5%Z sampleArray
    = Some {| CappedArray.mArray := [1; 5; 3; 4]%Z; CappedArray.mInd := 2 |}
  ∧ CappedArray.back {| CappedArray.mArray := [1; 5; 3; 4]%Z;
                        CappedArray.mInd := 2 |} ≠ Some 5%Z.
Proof.
  split; [reflexivity|].
  apply (proj2 (back_reads_past_last_inserted 4
                  {| CappedArray.mArray := [1; 5; 3; 4]%Z;
                     CappedArray.mInd := 2 |}
                  eq_refl ltac:(split; reflexivity))
           sampleArray 5%Z eq_refl eq_refl).
  discriminate.
Defined.

(** C2, as stated, fails: the operand of the Return is a literal, and the
    text has the placeholder LITERAL where the claim has the constant 1.  No
    amount of fuel gives the text of the claim. *)
Lemma scenario_B_prints_placeholder :
  dumpBlock 3 samplePack sampleFunction 3 0
    = Ok ("if (!(x)) {" +:+ LF +:+ "  return LITERAL;" +:+ LF +:+ "}" +:+ LF)
  ∧ ¬ ∃ fuel,
        dumpBlock fuel samplePack sampleFunction 3 0
          = Ok ("if (!(x)) {" +:+ LF +:+ "  return 1;" +:+ LF +:+ "}" +:+ LF).
Proof.
  split; [reflexivity|]. intros [fuel Hfuel].
  destruct (Nat.le_gt_cases 3 fuel) as [Hle|Hgt].
  - pose proof (dumpBlock_fuel_le 3 fuel samplePack sampleFunction 3 0 Hle)
      as [H|H]; [discriminate H|].
    rewrite <- H in Hfuel. discriminate Hfuel.
  - destruct fuel as [|[|[|fuel]]]; [vm_compute in Hfuel; discriminate Hfuel..|lia].
Qed.

(** C7, as stated, fails at depth 0: the Case statement and the Break
    statement of the block are both printed without indentation, so the Case
    is not one unit to the left of its sibling. *)
Lemma case_not_dedented_at_depth_0 :
  dumpBlock 2 samplePack sampleFunction 7 0
    = Ok ("case LITERAL:" +:+ LF +:+ "break;" +:+ LF)
  ∧ indentMinusOneOf 0 = indentOf 0
  ∧ indentOf 0 ≠ indentMinusOneOf 0 +:+ kIndentAmount.
Proof. repeat split; [reflexivity..|discriminate]. Qed.

(** * Further properties of the emitter *)

(** ** Operators and calls *)

(** X1. An evaluable rvalue that applies a unary operator to one argument
    whose emission appends [operand]: Negative, LogicalNot and BitwiseNot put
    their sign before the parenthesized operand, the increments and
    decrements put theirs before or after the bare operand, and ArrayLength
    appends [.length]. *)
Theorem unary_operator_text (fuel : nat) (pack : PackFromGlsl)
    (function : FunctionDefinition) (rValueId : RValueId)
    (op : RValueOperator) (arg : ValueId) (operand : string) :
  rValueId ≠ 0 →
  rValues pack !! rValueId
    = Some (Evaluable {| evaluable_op := OpOperator op;
                         evaluable_args := [arg] |}) →
  arity op = Some 1%nat →
  dumpValue fuel pack function arg = Ok operand →
  ∃ text,
    unaryText op operand = Some text
    ∧ dumpRValue (S fuel) pack function rValueId = Ok text.
Proof.
  intros Hid Hlookup Harity Harg.
  rewrite (dumpRValue_resolved _ _ _ _ _ Hid Hlookup).
  cbn [evaluable_op evaluable_args].
  destruct op; try discriminate Harity; cbn [unaryText];
    unfold dumpRValueOperator;
    rewrite (dumpArg_lookup _ [arg] 0 arg eq_refl), Harg;
    eexists; split; reflexivity.
Qed.

(** X2. An evaluable rvalue that applies Ternary to three arguments whose
    emissions append [c], [a] and [b] is emitted as ((c) ? (a) : (b)). *)
Theorem ternary_operator_text (fuel : nat) (pack : PackFromGlsl)
    (function : FunctionDefinition) (rValueId : RValueId)
    (condition first second : ValueId) (c a b : string) :
  rValueId ≠ 0 →
  rValues pack !! rValueId
    = Some (Evaluable {| evaluable_op := OpOperator Ternary;
                         evaluable_args := [condition; first; second] |}) →
  dumpValue fuel pack function condition = Ok c →
  dumpValue fuel pack function first = Ok a →
  dumpValue fuel pack function second = Ok b →
  dumpRValue (S fuel) pack function rValueId
    = Ok ("((" +:+ c +:+ ") ? (" +:+ a +:+ ") : (" +:+ b +:+ "))").
Proof.
  intros Hid Hlookup Hc Ha Hb.
  rewrite (dumpRValue_resolved _ _ _ _ _ Hid Hlookup).
  cbn [evaluable_op evaluable_args]. unfold dumpRValueOperator.
  rewrite (dumpArg_lookup _ [condition; first; second] 0 condition eq_refl),
          (dumpArg_lookup _ [condition; first; second] 1 first eq_refl),
          (dumpArg_lookup _ [condition; first; second] 2 second eq_refl),
          Hc, Ha, Hb.
  reflexivity.
Qed.

Lemma dumpCallArgs_rest dumpValue_rec (args : list ValueId) texts :
  Forall2 (λ arg text, dumpValue_rec arg = Ok text) args texts →
  dumpCallArgs dumpValue_rec false args
    = Ok (foldr (λ text acc, ", " +:+ text +:+ acc) "" texts).
Proof.
  induction 1 as [|arg text args texts Harg _ IH]; [reflexivity|].
  cbn [dumpCallArgs foldr]. now rewrite Harg, IH.
Qed.

Lemma dumpCallArgs_resolved dumpValue_rec (args : list ValueId) texts :
  Forall2 (λ arg text, dumpValue_rec arg = Ok text) args texts →
  dumpCallArgs dumpValue_rec true args = Ok (String.concat ", " texts).
Proof.
  destruct 1 as [|arg text args texts Harg Hrest]; [reflexivity|].
  cbn [dumpCallArgs]. rewrite Harg, (dumpCallArgs_rest _ _ _ Hrest).
  now rewrite concat_cons.
Qed.

(** X3. An evaluable rvalue that calls a function whose name is stored and
    whose arguments are all emitted is printed as the name up to its first
    parenthesis, followed by the texts of the arguments in order, separated
    by a comma and a space, inside parentheses. *)
Theorem function_call_text (fuel : nat) (pack : PackFromGlsl)
    (function : FunctionDefinition) (rValueId : RValueId)
    (functionId : FunctionId) (args : list ValueId) (name : string)
    (texts : list string) :
  rValueId ≠ 0 →
  rValues pack !! rValueId
    = Some (Evaluable {| evaluable_op := OpFunction functionId;
                         evaluable_args := args |}) →
  functionNames pack !! functionId = Some name →
  Forall2 (λ arg text, dumpValue fuel pack function arg = Ok text)
    args texts →
  dumpRValue (S fuel) pack function rValueId
    = Ok (substr0 name (find "("%char name)
            +:+ "(" +:+ String.concat ", " texts +:+ ")").
Proof.
  intros Hid Hlookup Hname Hargs.
  rewrite (dumpRValue_resolved _ _ _ _ _ Hid Hlookup).
  cbn [evaluable_op evaluable_args]. cbv zeta.
  unfold dumpRValueFunctionCall, dumpFunctionName.
  now rewrite Hname, (dumpCallArgs_resolved _ _ _ Hargs).
Qed.

Lemma forEach_texts {A} (body : A → Emitted) (items : list A) texts :
  Forall2 (λ item text, body item = Ok text) items texts →
  forEach body items = Ok (concatTexts texts).
Proof.
  induction 1 as [|item text items texts Hitem _ IH]; [reflexivity|].
  cbn [forEach]. now rewrite Hitem, IH.
Qed.

(** X4. ConstructStruct has no fixed arity: with any number of arguments
    that are all emitted, the rvalue is printed as the symbolic name of the
    operator and each argument after a space, inside parentheses. *)
Theorem construct_struct_text (fuel : nat) (pack : PackFromGlsl)
    (function : FunctionDefinition) (rValueId : RValueId)
    (args : list ValueId) (texts : list string) :
  rValueId ≠ 0 →
  rValues pack !! rValueId
    = Some (Evaluable {| evaluable_op := OpOperator ConstructStruct;
                         evaluable_args := args |}) →
  Forall2 (λ arg text, dumpValue fuel pack function arg = Ok text)
    args texts →
  dumpRValue (S fuel) pack function rValueId
    = Ok ("(" +:+ rValueOperatorToString ConstructStruct
            +:+ concatTexts ((λ text, " " +:+ text) <$> texts) +:+ ")").
Proof.
  intros Hid Hlookup Hargs.
  rewrite (dumpRValue_resolved _ _ _ _ _ Hid Hlookup).
  cbn [evaluable_op evaluable_args]. cbv zeta. unfold dumpRValueOperator.
  rewrite (forEach_texts _ args ((λ text, " " +:+ text) <$> texts)).
  - reflexivity.
  - apply Forall2_fmap_r. eapply Forall2_impl; [exact Hargs|].
    intros arg text Harg. cbn beta. now rewrite Harg.
Qed.

(** ** Types and unresolved handles *)

Lemma type_text_resolved (pack : PackFromGlsl) (typeId : TypeId)
    (type : Type_) :
  types pack !! typeId = Some type →
  dumpType pack typeId = Ok (typeText type).
Proof.
  intros Htype. unfold dumpType, typeText. rewrite Htype.
  rewrite bool_decide_true by eauto. rewrite ASSERT_PRECONDITION_true.
  rewrite (forEach_texts _ (type_arraySizes type)
             ((λ arraySize : Z, "[" +:+ pretty arraySize +:+ "]")
                <$> type_arraySizes type)).
  - destruct (String.eqb (type_precision type) ""); cbn;
      now rewrite ?string_app_assoc.
  - apply Forall2_fmap_r, Forall_Forall2_diag, Forall_forall.
    intros arraySize _. reflexivity.
Qed.

(** X5. A type that is in the table is printed as its precision and a space
    when the precision is not empty, its name, and its array sizes, each in
    brackets, in declared order; a type without precision and without array
    sizes is printed as its bare name. *)
Theorem type_text (pack : PackFromGlsl) (typeId : TypeId) (type : Type_) :
  types pack !! typeId = Some type →
  dumpType pack typeId = Ok (typeText type)
  ∧ (type_precision type = "" → type_arraySizes type = [] →
     dumpType pack typeId = Ok (type_name type)).
Proof.
  intros Htype. rewrite (type_text_resolved _ _ _ Htype).
  split; [reflexivity|]. intros Hprecision Hsizes.
  unfold typeText. rewrite Hprecision, Hsizes. cbn.
  now rewrite string_app_empty_r.
Qed.

(** X6. A value reference whose handle is not the sentinel and has no entry
    in its table stops the emission with a precondition panic: an rvalue
    (once the call depth allows the lookup), a global symbol, a local symbol
    of the function. *)
Theorem unresolved_value_panics (fuel : nat) (pack : PackFromGlsl)
    (function : FunctionDefinition) (id : N) :
  id ≠ 0 →
  (rValues pack !! id = None →
     dumpValue (S fuel) pack function (ValueRValue id)
       = Abort (PreconditionPanic "Missing RValue"))
  ∧ (globalSymbols pack !! id = None →
       dumpValue fuel pack function (ValueGlobalSymbol id)
         = Abort (PreconditionPanic "Missing global symbol"))
  ∧ (localSymbols_find (function_localSymbols function) id = None →
       dumpValue fuel pack function (ValueLocalSymbol id)
         = Abort (PreconditionPanic "Missing local symbol")).
Proof.
  intros Hid. apply N.eqb_neq in Hid.
  unfold dumpValue, dumpValueWith, dumpGlobalSymbol, dumpLocalSymbol.
  cbn [dumpRValue]. rewrite Hid.
  repeat split; intros ->;
    rewrite bool_decide_false by (intros [? [=]]); reflexivity.
Qed.

(** X7. The other tables: a block, a type or, for a definition, a function
    definition that is missing stops the emission with a precondition panic,
    a block even before any fuel is spent; a function name that is missing
    stops it with the out-of-range exception of [at]. *)
Theorem unresolved_structure_stops (fuel : nat) (pack : PackFromGlsl)
    (function : FunctionDefinition) (id : N) (depth : Z) :
  (statementBlocks pack !! id = None →
     dumpBlock fuel pack function id depth
       = Abort (PreconditionPanic "Missing block definition"))
  ∧ (types pack !! id = None →
       dumpType pack id = Abort (PreconditionPanic "Missing type definition"))
  ∧ (functionDefinitions pack !! id = None →
       dumpFunction fuel pack id true
         = Abort (PreconditionPanic "Missing function definition"))
  ∧ (functionNames pack !! id = None →
       dumpFunctionName pack id = Abort OutOfRange).
Proof.
  repeat split; intros Hnone.
  - destruct fuel; cbn [dumpBlock]; rewrite Hnone;
      rewrite bool_decide_false by (intros [? [=]]); reflexivity.
  - unfold dumpType. rewrite Hnone.
    rewrite bool_decide_false by (intros [? [=]]). reflexivity.
  - unfold dumpFunction. rewrite Hnone.
    rewrite bool_decide_false by (intros [? [=]]). reflexivity.
  - unfold dumpFunctionName. now rewrite Hnone.
Qed.

(** X24. A reference to a symbol that resolves is printed as the bare name
    of the symbol: a global symbol from the table of the pack, a local symbol
    from the table of the function.  Only where a local symbol is declared,
    as a parameter, its type and a space come before the name. *)
Theorem symbol_reference_text (fuel : nat) (pack : PackFromGlsl)
    (function : FunctionDefinition) (id : N) :
  id ≠ 0 →
  (∀ globalSymbol,
     globalSymbols pack !! id = Some globalSymbol →
     dumpValue fuel pack function (ValueGlobalSymbol id)
       = Ok (globalSymbol_name globalSymbol))
  ∧ (∀ localSymbol,
       localSymbols_find (function_localSymbols function) id
         = Some localSymbol →
       dumpValue fuel pack function (ValueLocalSymbol id)
         = Ok (localSymbol_name localSymbol)
       ∧ ∀ type,
           types pack !! localSymbol_type localSymbol = Some type →
           dumpLocalSymbol pack function id true
             = Ok (typeText type +:+ " " +:+ localSymbol_name localSymbol)).
Proof.
  intros Hid. apply N.eqb_neq in Hid.
  unfold dumpValue, dumpValueWith, dumpGlobalSymbol, dumpLocalSymbol.
  rewrite Hid. split.
  - intros globalSymbol ->. now rewrite bool_decide_true by eauto.
  - intros localSymbol ->. rewrite bool_decide_true by eauto.
    split; [reflexivity|]. intros type Htype.
    rewrite (type_text_resolved _ _ _ Htype). cbn.
    now rewrite ?string_app_assoc.
Qed.

(** ** Blocks and the program as sequences *)

Lemma forEach_abort {A} (body : A → Emitted) (before after : list A)
    (item : A) (emitted : string) (panic : Panic) :
  forEach body before = Ok emitted →
  body item = Abort panic →
  forEach body (before ++ item :: after) = Abort panic.
Proof.
  intros Hbefore Hitem. rewrite forEach_app. cbn [forEach].
  now rewrite Hbefore, Hitem.
Qed.

(** X8. A panic is never recovered from.  In a block, the panic of the first
    statement that panics is the outcome of the block; in the program, the
    panic of the first definition that panics, after prototypes that were
    all emitted, is the outcome of [toGlsl].  The statements and functions
    that follow do not matter. *)
Theorem first_panic_is_the_outcome (fuel : nat) (pack : PackFromGlsl)
    (panic : Panic) :
  (∀ function blockId depth before statement after emitted,
     statementBlocks pack !! blockId = Some (before ++ statement :: after) →
     forEach
       (dumpStatement pack function (dumpRValue fuel pack function)
          (dumpBlock fuel pack function) depth) before = Ok emitted →
     dumpStatement pack function (dumpRValue fuel pack function)
       (dumpBlock fuel pack function) depth statement = Abort panic →
     dumpBlock (S fuel) pack function blockId depth = Abort panic)
  ∧ (∀ before functionId after prototypes emitted,
       functionDefinitionOrder pack = before ++ functionId :: after →
       forEach (λ id, dumpFunction fuel pack id false)
         (functionPrototypes pack) = Ok prototypes →
       forEach (λ id, dumpFunction fuel pack id true) before = Ok emitted →
       dumpFunction fuel pack functionId true = Abort panic →
       toGlsl fuel pack = Abort panic).
Proof.
  split.
  - intros function blockId depth before statement after emitted
      Hblock Hbefore Hstatement.
    rewrite (dumpBlock_resolved _ _ _ _ _ _ Hblock).
    now apply forEach_abort with (emitted := emitted).
  - intros before functionId after prototypes emitted
      Horder Hprototypes Hbefore Hfunction.
    unfold toGlsl. rewrite Hprototypes, Horder.
    now rewrite (forEach_abort _ before after functionId emitted panic).
Qed.

(** X9. The text of a block is the texts of its statements one after the
    other, in the order of the block; the text of the program is the texts
    of the prototypes in the order of [functionPrototypes] followed by the
    texts of the definitions in the order of [functionDefinitionOrder]. *)
Theorem texts_in_order (fuel : nat) (pack : PackFromGlsl) :
  (∀ function blockId depth statements texts,
     statementBlocks pack !! blockId = Some statements →
     Forall2
       (λ statement text,
          dumpStatement pack function (dumpRValue fuel pack function)
            (dumpBlock fuel pack function) depth statement = Ok text)
       statements texts →
     dumpBlock (S fuel) pack function blockId depth = Ok (concatTexts texts))
  ∧ (∀ prototypes definitions,
       Forall2 (λ id text, dumpFunction fuel pack id false = Ok text)
         (functionPrototypes pack) prototypes →
       Forall2 (λ id text, dumpFunction fuel pack id true = Ok text)
         (functionDefinitionOrder pack) definitions →
       toGlsl fuel pack
         = Ok (concatTexts prototypes +:+ concatTexts definitions)).
Proof.
  split.
  - intros function blockId depth statements texts Hblock Htexts.
    rewrite (dumpBlock_resolved _ _ _ _ _ _ Hblock).
    now apply forEach_texts.
  - intros prototypes definitions Hprototypes Hdefinitions. unfold toGlsl.
    now rewrite (forEach_texts _ _ _ Hprototypes),
                (forEach_texts _ _ _ Hdefinitions).
Qed.

(** ** The other statements *)

(** X10. An If statement inside a block, whose condition and blocks are
    emitted: [if (cond) {], the then-block one level deeper, and the closing
    brace at the indentation of the block; with an else-block, [} else {] at
    that indentation and the else-block one level deeper come before the
    closing brace. *)
Theorem if_statement_text (fuel : nat) (pack : PackFromGlsl)
    (function : FunctionDefinition) (blockId : StatementBlockId) (depth : Z)
    (before after : list Statement) (ifStatement : IfStatement)
    (p q cond thenText elseText : string) :
  let emit :=
    dumpStatement pack function (dumpRValue fuel pack function)
      (dumpBlock fuel pack function) depth in
  statementBlocks pack !! blockId
    = Some (before ++ StatementIf ifStatement :: after) →
  forEach emit before = Ok p →
  forEach emit after = Ok q →
  dumpValue fuel pack function (if_condition ifStatement) = Ok cond →
  dumpBlock fuel pack function (if_thenBlock ifStatement) (depth + 1)
    = Ok thenText →
  (∀ elseBlock, if_elseBlock ifStatement = Some elseBlock →
     dumpBlock fuel pack function elseBlock (depth + 1) = Ok elseText) →
  dumpBlock (S fuel) pack function blockId depth
    = Ok (p +:+
          (indentOf depth +:+ "if (" +:+ cond +:+ ") {" +:+ LF +:+ thenText
           +:+ match if_elseBlock ifStatement with
               | Some _ => indentOf depth +:+ "} else {" +:+ LF +:+ elseText
               | None => ""
               end
           +:+ indentOf depth +:+ "}" +:+ LF)
          +:+ q).
Proof.
  intros emit Hblock Hp Hq Hcond Hthen Helse.
  apply (dumpBlock_around _ _ _ _ _ _ _ _ _ _ _ Hblock Hp); [|exact Hq].
  unfold dumpStatement. unfold dumpValue in Hcond. rewrite Hcond, Hthen.
  destruct (if_elseBlock ifStatement) as [elseBlock|].
  - rewrite (Helse elseBlock eq_refl). cbn. now rewrite ?string_app_assoc.
  - cbn. now rewrite ?string_app_assoc.
Qed.

(** X11. A Switch statement inside a block, whose condition and body are
    emitted: [switch (cond) {], the body one level deeper, and the closing
    brace at the indentation of the block. *)
Theorem switch_statement_text (fuel : nat) (pack : PackFromGlsl)
    (function : FunctionDefinition) (blockId : StatementBlockId) (depth : Z)
    (before after : list Statement) (switchStatement : SwitchStatement)
    (p q cond body : string) :
  let emit :=
    dumpStatement pack function (dumpRValue fuel pack function)
      (dumpBlock fuel pack function) depth in
  statementBlocks pack !! blockId
    = Some (before ++ StatementSwitch switchStatement :: after) →
  forEach emit before = Ok p →
  forEach emit after = Ok q →
  dumpValue fuel pack function (switch_condition switchStatement) = Ok cond →
  dumpBlock fuel pack function (switch_body switchStatement) (depth + 1)
    = Ok body →
  dumpBlock (S fuel) pack function blockId depth
    = Ok (p +:+
          (indentOf depth +:+ "switch (" +:+ cond +:+ ") {" +:+ LF +:+ body
           +:+ indentOf depth +:+ "}" +:+ LF)
          +:+ q).
Proof.
  intros emit Hblock Hp Hq Hcond Hbody.
  apply (dumpBlock_around _ _ _ _ _ _ _ _ _ _ _ Hblock Hp); [|exact Hq].
  unfold dumpStatement. unfold dumpValue in Hcond. rewrite Hcond, Hbody.
  cbn. now rewrite ?string_app_assoc.
Qed.

(** X12. A branch statement inside a block is one line: the keyword of its
    operator, a space and the operand when there is one, then a colon for
    Case and Default and a semicolon for every other operator.  The keywords
    of different operators differ. *)
Theorem branch_statement_text (fuel : nat) (pack : PackFromGlsl)
    (function : FunctionDefinition) (blockId : StatementBlockId) (depth : Z)
    (before after : list Statement) (branchStatement : BranchStatement)
    (p q operandText : string) :
  let emit :=
    dumpStatement pack function (dumpRValue fuel pack function)
      (dumpBlock fuel pack function) depth in
  statementBlocks pack !! blockId
    = Some (before ++ StatementBranch branchStatement :: after) →
  forEach emit before = Ok p →
  forEach emit after = Ok q →
  (∀ operand, branch_operand branchStatement = Some operand →
     dumpValue fuel pack function operand = Ok operandText) →
  dumpBlock (S fuel) pack function blockId depth
    = Ok (p +:+
          ((if isCaseOrDefault (StatementBranch branchStatement)
            then indentMinusOneOf depth else indentOf depth)
           +:+ branchKeyword (branch_op branchStatement)
           +:+ match branch_operand branchStatement with
               | Some _ => " " +:+ operandText
               | None => ""
               end
           +:+ branchTerminator (branch_op branchStatement) +:+ LF)
          +:+ q)
  ∧ ∀ op op', branchKeyword op = branchKeyword op' → op = op'.
Proof.
  intros emit Hblock Hp Hq Hoperand. split.
  - apply (dumpBlock_around _ _ _ _ _ _ _ _ _ _ _ Hblock Hp); [|exact Hq].
    unfold dumpStatement. destruct branchStatement as [op operand].
    cbn [branch_op branch_operand isCaseOrDefault] in *.
    destruct operand as [operand|].
    + unfold dumpValue in Hoperand. rewrite (Hoperand operand eq_refl).
      destruct op; cbn; now rewrite ?string_app_assoc.
    + destruct op; cbn; now rewrite ?string_app_assoc.
  - intros op op'. destruct op, op'; cbn; intros [=]; reflexivity.
Qed.

Lemma forEach_endsWithLF {A} (body : A → Emitted) (items : list A) text :
  (∀ item itemText, body item = Ok itemText → endsWithLF itemText) →
  forEach body items = Ok text →
  text = "" ∨ endsWithLF text.
Proof.
  intros Hbody. revert text.
  induction items as [|item items IH]; intros text; cbn [forEach].
  - intros [= <-]. now left.
  - intros H. apply andThen_Ok_inv in H as (s & t & Hs & Ht & ->).
    right. destruct (IH _ Ht) as [->|[line ->]].
    + rewrite string_app_empty_r. eauto.
    + exists (s +:+ line). now rewrite string_app_assoc.
Qed.

Lemma endsWithLF_last (a r : Emitted) :
  (∀ text, r = Ok text → endsWithLF text) →
  ∀ text, (a ;; r) = Ok text → endsWithLF text.
Proof.
  intros Hr text H. apply andThen_Ok_inv in H as (s & t & _ & Ht & ->).
  destruct (Hr t Ht) as [line ->]. exists (s +:+ line).
  now rewrite string_app_assoc.
Qed.

Lemma endsWithLF_write_LF (text : string) : write LF = Ok text → endsWithLF text.
Proof. intros [= <-]. now exists "". Qed.

(** X13. Every statement that is emitted ends with a line feed, so the text
    of a block that is emitted is empty or ends with a line feed: the
    statements are on lines of their own. *)
Theorem statements_end_lines (fuel : nat) (pack : PackFromGlsl)
    (function : FunctionDefinition) (blockId : StatementBlockId) (depth : Z)
    (text : string) :
  dumpBlock fuel pack function blockId depth = Ok text →
  text = "" ∨ endsWithLF text.
Proof.
  destruct fuel as [|fuel]; cbn [dumpBlock].
  { destruct (statementBlocks pack !! blockId);
      [rewrite bool_decide_true by eauto|
       rewrite bool_decide_false by (intros [? [=]])]; discriminate. }
  destruct (statementBlocks pack !! blockId) as [statements|];
    [rewrite bool_decide_true by eauto|
     rewrite bool_decide_false by (intros [? [=]]); discriminate].
  rewrite ASSERT_PRECONDITION_true. apply forEach_endsWithLF.
  intros statement. unfold dumpStatement.
  generalize (indentOf depth), (indentMinusOneOf depth).
  intros indent indentMinusOne.
  destruct statement as [rValueId|[c t e]|[c b]|[op operand]|[c t first b]];
    cbn [if_condition if_thenBlock if_elseBlock switch_condition switch_body
         branch_op branch_operand loop_condition loop_terminal
         loop_testFirst loop_body];
    try destruct op; try destruct first;
    repeat first [apply endsWithLF_write_LF | apply endsWithLF_last].
Qed.

Lemma indentation_length (n : nat) :
  String.length (indentation n) = (2 * n)%nat.
Proof.
  induction n as [|n IH]; [reflexivity|].
  cbn [indentation]. rewrite string_app_length, IH. cbn. lia.
Qed.

(** X14. The indentation of a block is two spaces for each level of its
    depth, and none at depth 0 or below; the indentation of its Case and
    Default labels is that of the depth before. *)
Theorem indent_width (depth : Z) :
  String.length (indentOf depth) = (2 * Z.to_nat depth)%nat
  ∧ String.length (indentMinusOneOf depth) = (2 * Z.to_nat (depth - 1))%nat
  ∧ indentOf depth = indentation (Z.to_nat depth)
  ∧ indentMinusOneOf depth = indentation (Z.to_nat (depth - 1)).
Proof.
  rewrite indentOf_indentation, indentMinusOneOf_indentation,
    !indentation_length. repeat split.
Qed.

(** ** Definitions of functions *)

(** X15. A function without parameters and without local symbols whose body
    is the empty block is defined as its return type, a space, its name,
    [() {], a line feed, [}] and a line feed, and declared by its prototype
    as the return type, a space, the name, [();] and a line feed. *)
Theorem empty_function_text (fuel : nat) (pack : PackFromGlsl)
    (functionId : FunctionId) (function : FunctionDefinition)
    (returnType name : string) :
  functionDefinitions pack !! functionId = Some function →
  function_parameters function = [] →
  function_localSymbols function = [] →
  statementBlocks pack !! function_body function = Some [] →
  dumpType pack (function_returnType function) = Ok returnType →
  functionNames pack !! function_name function = Some name →
  dumpFunction (S fuel) pack functionId true
    = Ok (returnType +:+ " " +:+ substr0 name (find "("%char name)
            +:+ "() {" +:+ LF +:+ "}" +:+ LF)
  ∧ dumpFunction (S fuel) pack functionId false
    = Ok (returnType +:+ " " +:+ substr0 name (find "("%char name)
            +:+ "();" +:+ LF).
Proof.
  intros Hdef Hparameters Hlocals Hbody Htype Hname.
  assert (Hps : dumpParameters pack function true
                  (function_parameters function) = Ok "")
    by now rewrite Hparameters.
  rewrite !(dumpFunction_resolved _ _ _ _ _ _ _ _ Hdef Htype Hname Hps).
  rewrite Hlocals, (dumpBlock_resolved _ _ _ _ _ _ Hbody).
  cbn. now rewrite ?string_app_assoc.
Qed.

(** X16. In the body of a definition, a local symbol whose handle is the
    name of a parameter is not declared, whatever its type; any other local
    symbol whose type resolves is declared on a line of its own as one
    indentation unit, its type, a space, its name and a semicolon. *)
Theorem parameters_not_redeclared (pack : PackFromGlsl)
    (function : FunctionDefinition) (id : LocalSymbolId)
    (localSymbol : LocalSymbol) :
  (id ∈ parameter_name <$> function_parameters function →
     dumpLocalDeclaration pack (parameterSymbolIdsOf function)
       (id, localSymbol) = Ok "")
  ∧ (id ∉ parameter_name <$> function_parameters function →
     ∀ type, types pack !! localSymbol_type localSymbol = Some type →
       dumpLocalDeclaration pack (parameterSymbolIdsOf function)
         (id, localSymbol)
       = Ok (kIndentAmount +:+ typeText type +:+ " "
               +:+ localSymbol_name localSymbol +:+ ";" +:+ LF)).
Proof.
  unfold dumpLocalDeclaration, parameterSymbolIdsOf. cbn [fst snd]. split.
  - intros Hin. rewrite bool_decide_true; [reflexivity|].
    now apply elem_of_list_to_set.
  - intros Hnotin type Htype. rewrite bool_decide_false.
    + rewrite (type_text_resolved _ _ _ Htype). cbn.
      now rewrite ?string_app_assoc.
    + now rewrite elem_of_list_to_set.
Qed.

(** X17. The [type] member of a parameter is never read: two lists of
    parameters with the same names are printed alike, since the type that is
    printed is that of the local symbol the parameter names. *)
Theorem parameter_type_not_read (pack : PackFromGlsl)
    (function : FunctionDefinition) (firstParameter : bool)
    (parameters parameters' : list FunctionParameter) :
  parameter_name <$> parameters = parameter_name <$> parameters' →
  dumpParameters pack function firstParameter parameters
    = dumpParameters pack function firstParameter parameters'.
Proof.
  revert firstParameter parameters'.
  induction parameters as [|parameter parameters IH];
    intros firstParameter [|parameter' parameters'] Hnames;
    try discriminate Hnames; [reflexivity|].
  injection Hnames as Hname Hrest. cbn [dumpParameters].
  now rewrite Hname, (IH false parameters' Hrest).
Qed.

(** ** More on CappedArray *)

Section CappedArrayProperties.

Context {T : Type} `{!EqDecision T}.
Variable CAPACITY : N.

Abbreviation array := (CappedArray.t (T := T)).

(** X18. [insert] succeeds exactly while the array is not full.  When it
    succeeds, the size grows by one, the array keeps its [CAPACITY] slots,
    the item is in the slot the old size points at, and every other slot is
    as before. *)
Theorem insert_within_capacity (c : array) (item : T) :
  CappedArray.wellFormed CAPACITY c →
  (CappedArray.size c < CAPACITY →
     ∃ c',
       CappedArray.insert CAPACITY item c = Some c'
       ∧ CappedArray.size c' = CappedArray.size c + 1
       ∧ CappedArray.wellFormed CAPACITY c'
       ∧ CappedArray.at_ c' (CappedArray.size c) = Some item
       ∧ ∀ ind, ind ≠ CappedArray.size c →
           CappedArray.at_ c' ind = CappedArray.at_ c ind)
  ∧ (CAPACITY ≤ CappedArray.size c →
       CappedArray.insert CAPACITY item c = None).
Proof.
  unfold CappedArray.wellFormed, CappedArray.size, CappedArray.insert,
    CappedArray.at_.
  intros Hwf. split.
  - intros Hroom. apply N.ltb_lt in Hroom as Hroomb. rewrite Hroomb.
    eexists. split; [reflexivity|]. cbn. repeat split.
    + now rewrite length_insert.
    + apply list_lookup_insert_eq. lia.
    + intros ind Hind. apply list_lookup_insert_ne. lia.
  - intros Hfull. apply N.ltb_ge in Hfull. now rewrite Hfull.
Qed.

(** X19. [pop_back] undoes the count of an [insert] but not the write: the
    size is as before the insert, the elements below it are as before, and
    the popped item stays in its slot. *)
Theorem pop_back_after_insert (c c1 : array) (item : T) :
  CappedArray.wellFormed CAPACITY c →
  CappedArray.insert CAPACITY item c = Some c1 →
  ∃ c2,
    CappedArray.pop_back c1 = Some c2
    ∧ CappedArray.size c2 = CappedArray.size c
    ∧ (∀ ind, ind < CappedArray.size c →
         CappedArray.at_ c2 ind = CappedArray.at_ c ind)
    ∧ CappedArray.at_ c2 (CappedArray.size c) = Some item.
Proof.
  unfold CappedArray.wellFormed, CappedArray.size, CappedArray.insert,
    CappedArray.pop_back, CappedArray.at_.
  intros Hwf Hinsert.
  destruct (CappedArray.mInd c <? CAPACITY) eqn:Hroom; [|discriminate].
  apply N.ltb_lt in Hroom. injection Hinsert as <-. cbn.
  assert (Hpos : (0 <? CappedArray.mInd c + 1) = true)
    by (apply N.ltb_lt; lia).
  rewrite Hpos. eexists. split; [reflexivity|]. cbn. repeat split.
  - lia.
  - intros ind Hind. apply list_lookup_insert_ne. lia.
  - apply list_lookup_insert_eq. lia.
Qed.

(** X20. [back] reads the slot one past the last element, so it has a
    result exactly when the array is neither empty nor full; and right after
    an insert into a non-empty array followed by a [pop_back], [back]
    returns the item that was popped. *)
Theorem back_result (c : array) :
  CappedArray.wellFormed CAPACITY c →
  (is_Some (CappedArray.back c)
   ↔ 0 < CappedArray.size c < CAPACITY)
  ∧ ∀ item c1 c2,
      0 < CappedArray.size c →
      CappedArray.insert CAPACITY item c = Some c1 →
      CappedArray.pop_back c1 = Some c2 →
      CappedArray.back c2 = Some item.
Proof.
  unfold CappedArray.wellFormed, CappedArray.size, CappedArray.back,
    CappedArray.insert, CappedArray.pop_back.
  intros Hwf. split.
  - destruct (0 <? CappedArray.mInd c) eqn:Hpos.
    + apply N.ltb_lt in Hpos. rewrite lookup_lt_is_Some. lia.
    + apply N.ltb_ge in Hpos. split; [intros [? [=]]|lia].
  - intros item c1 c2 Hpos Hinsert Hpop.
    destruct (CappedArray.mInd c <? CAPACITY) eqn:Hroom; [|discriminate].
    apply N.ltb_lt in Hroom. injection Hinsert as <-. cbn in Hpop.
    assert (Hpos' : (0 <? CappedArray.mInd c + 1) = true)
      by (apply N.ltb_lt; lia).
    rewrite Hpos' in Hpop. injection Hpop as <-. cbn.
    replace (CappedArray.mInd c + 1 - 1) with (CappedArray.mInd c) by lia.
    apply N.ltb_lt in Hpos as ->.
    apply list_lookup_insert_eq. lia.
Qed.

(** X21. [begin] and [end] delimit exactly the elements that were added:
    the range starts at slot 0 when the array is not empty, it is
    [size] slots long, and for an empty array both are the end of the
    array. *)
Theorem begin_end_range (c : array) :
  CappedArray.wellFormed CAPACITY c →
  CappedArray.size c ≤ CAPACITY →
  CappedArray.end_ CAPACITY c - CappedArray.begin_ CAPACITY c
    = CappedArray.size c
  ∧ (0 < CappedArray.size c → CappedArray.begin_ CAPACITY c = 0)
  ∧ (CappedArray.size c = 0 →
     CappedArray.begin_ CAPACITY c = CAPACITY
     ∧ CappedArray.end_ CAPACITY c = CAPACITY).
Proof.
  unfold CappedArray.size, CappedArray.begin_, CappedArray.end_.
  intros _ Hsize.
  destruct (CappedArray.mInd c =? 0) eqn:Hzero;
    [apply N.eqb_eq in Hzero|apply N.eqb_neq in Hzero];
    destruct (0 <? CappedArray.mInd c) eqn:Hpos;
    [apply N.ltb_lt in Hpos|apply N.ltb_ge in Hpos
    |apply N.ltb_lt in Hpos|apply N.ltb_ge in Hpos];
    destruct (CappedArray.mInd c <? CAPACITY) eqn:Hroom;
    [apply N.ltb_lt in Hroom|apply N.ltb_ge in Hroom
    |apply N.ltb_lt in Hroom|apply N.ltb_ge in Hroom
    |apply N.ltb_lt in Hroom|apply N.ltb_ge in Hroom
    |apply N.ltb_lt in Hroom|apply N.ltb_ge in Hroom];
    cbn; repeat split; lia.
Qed.

Lemma std_find_spec (elements : list T) (n : nat) (first : N) (item : T) :
  (N.to_nat first + n ≤ length elements)%nat →
  let found := CappedArray.std_find elements first n item in
  first ≤ found ≤ first + N.of_nat n
  ∧ (found < first + N.of_nat n → elements !! N.to_nat found = Some item)
  ∧ ∀ j, first ≤ j < found → elements !! N.to_nat j ≠ Some item.
Proof.
  revert first. induction n as [|n IH]; intros first Hbound; cbn.
  - repeat split; lia.
  - destruct (lookup_lt_is_Some_2 elements (N.to_nat first)) as [x Hx];
      [lia|]. rewrite Hx. destruct (decide (x = item)) as [->|Hne].
    + repeat split; [lia..|auto|lia].
    + destruct (IH (first + 1)) as (Hrange & Hfound & Hbefore); [lia|].
      repeat split; [lia..| |].
      * intros Hlt. apply Hfound. lia.
      * intros j Hj. destruct (N.eq_dec j first) as [->|Hjne].
        -- rewrite Hx. congruence.
        -- apply Hbefore. lia.
Qed.

(** X22. [find] looks among the elements that were added and nowhere else.
    When its result is not [end], it is the position, below [size], of the
    first element equal to the item; when its result is [end], no element
    below [size] is equal to the item. *)
Theorem find_among_added (c : array) (item : T) :
  CappedArray.wellFormed CAPACITY c →
  CappedArray.size c ≤ CAPACITY →
  let found := CappedArray.find CAPACITY item c in
  (found ≠ CappedArray.end_ CAPACITY c →
     found < CappedArray.size c
     ∧ CappedArray.at_ c found = Some item
     ∧ ∀ j, j < found → CappedArray.at_ c j ≠ Some item)
  ∧ (found = CappedArray.end_ CAPACITY c →
     ∀ j, j < CappedArray.size c → CappedArray.at_ c j ≠ Some item).
Proof.
  intros Hwf Hsize found.
  destruct (begin_end_range c Hwf Hsize) as (Hlen & Hbegin & Hempty).
  unfold CappedArray.wellFormed in Hwf. unfold CappedArray.at_.
  pose proof (std_find_spec (CappedArray.mArray c)
    (N.to_nat (CappedArray.end_ CAPACITY c - CappedArray.begin_ CAPACITY c))
    (CappedArray.begin_ CAPACITY c) item) as Hspec.
  fold (CappedArray.find CAPACITY item c) in Hspec. fold found in Hspec.
  rewrite Hlen in *.
  destruct (N.eq_dec (CappedArray.size c) 0) as [Hzero|Hnonzero].
  - destruct (Hempty Hzero) as [Hb He]. rewrite Hb, He, Hzero in *.
    destruct Hspec as (Hrange & _); [cbn; lia|].
    split; [intros Hne; lia|intros _ j Hj; lia].
  - rewrite Hbegin in * by lia.
    destruct Hspec as (Hrange & Hfound & Hbefore); [lia|].
    assert (Hend : CappedArray.end_ CAPACITY c = CappedArray.size c) by lia.
    rewrite Hend. split.
    + intros Hne. repeat split; [lia|apply Hfound; lia|].
      intros j Hj. apply Hbefore. lia.
    + intros Heq j Hj. apply Hbefore. lia.
Qed.

(** X23. [clear] resets the count and leaves the slots alone: afterwards the
    size is 0, [begin] equals [end], [find] finds nothing, and the array
    still compares equal to the one before, because [operator==] compares
    the slots and not the sizes. *)
Theorem clear_forgets_elements (c : array) (item : T) :
  CappedArray.size (CappedArray.clear c) = 0
  ∧ CappedArray.mArray (CappedArray.clear c) = CappedArray.mArray c
  ∧ CappedArray.begin_ CAPACITY (CappedArray.clear c)
    = CappedArray.end_ CAPACITY (CappedArray.clear c)
  ∧ CappedArray.find CAPACITY item (CappedArray.clear c)
    = CappedArray.end_ CAPACITY (CappedArray.clear c)
  ∧ CappedArray.equal (CappedArray.clear c) c = true.
Proof.
  assert (Hsize : CappedArray.mInd (CappedArray.clear c) = 0).
  { unfold CappedArray.clear.
    destruct (CappedArray.mInd c =? 0) eqn:Hzero; [|reflexivity].
    now apply N.eqb_eq in Hzero. }
  assert (Harray :
    CappedArray.mArray (CappedArray.clear c) = CappedArray.mArray c).
  { unfold CappedArray.clear. now destruct (CappedArray.mInd c =? 0). }
  unfold CappedArray.size, CappedArray.find, CappedArray.begin_,
    CappedArray.end_, CappedArray.equal.
  rewrite Hsize, Harray. cbn. rewrite N.sub_diag. cbn.
  repeat split. now apply bool_decide_eq_true.
Qed.

End CappedArrayProperties.

(** ** The further properties at work on the samples *)

Lemma unary_operator_text_witness :
  ∃ text,
    unaryText LogicalNot "x" = Some text
    ∧ dumpRValue 1 samplePack sampleFunction 2 = Ok text.
Proof.
  apply (unary_operator_text 0 samplePack sampleFunction 2 LogicalNot
           (ValueLocalSymbol 3) "x");
    [discriminate|reflexivity..].
Defined.

Lemma ternary_operator_text_witness :
  dumpRValue 1 samplePack2 sampleFunction 8 = Ok "((x) ? (a) : (b))".
Proof.
  apply (ternary_operator_text 0 samplePack2 sampleFunction 8
           (ValueLocalSymbol 3) (ValueLocalSymbol 1) (ValueLocalSymbol 2)
           "x" "a" "b");
    [discriminate|reflexivity..].
Defined.

Lemma function_call_text_witness :
  dumpRValue 2 samplePack sampleFunction 6 = Ok "f((a + b), x)".
Proof.
  apply (function_call_text 1 samplePack sampleFunction 6 1
           [ValueRValue 1; ValueLocalSymbol 3] "f(f1;f1;" ["(a + b)"; "x"]);
    [discriminate|reflexivity|reflexivity|].
  repeat constructor.
Defined.

Lemma construct_struct_text_witness :
  dumpRValue 1 samplePack2 sampleFunction 9 = Ok "(ConstructStruct a b)".
Proof.
  apply (construct_struct_text 0 samplePack2 sampleFunction 9
           [ValueLocalSymbol 1; ValueLocalSymbol 2] ["a"; "b"]);
    [discriminate|reflexivity|].
  repeat constructor.
Defined.

Lemma type_text_witness :
  dumpType samplePack2 4 = Ok "mediump vec4[2][3]"
  ∧ dumpType samplePack2 3 = Ok "void".
Proof.
  split.
  - apply (type_text samplePack2 4
             {| type_name := "vec4"; type_precision := "mediump";
                type_arraySizes := [2; 3]%Z |}).
    reflexivity.
  - apply (proj2 (type_text samplePack2 3
                    {| type_name := "void"; type_precision := "";
                       type_arraySizes := [] |} eq_refl));
      reflexivity.
Defined.

Lemma unresolved_value_panics_witness :
  dumpValue 1 samplePack sampleFunction (ValueRValue 40)
    = Abort (PreconditionPanic "Missing RValue")
  ∧ dumpValue 0 samplePack sampleFunction (ValueGlobalSymbol 40)
    = Abort (PreconditionPanic "Missing global symbol")
  ∧ dumpValue 0 samplePack sampleFunction (ValueLocalSymbol 40)
    = Abort (PreconditionPanic "Missing local symbol").
Proof.
  destruct (unresolved_value_panics 0 samplePack sampleFunction 40
              ltac:(discriminate)) as (HrValue & Hglobal & Hlocal).
  split; [|split]; [apply HrValue|apply Hglobal|apply Hlocal]; reflexivity.
Defined.

Lemma unresolved_structure_stops_witness :
  dumpBlock 0 samplePack sampleFunction 40 1
    = Abort (PreconditionPanic "Missing block definition")
  ∧ dumpFunction 0 samplePack 40 true
    = Abort (PreconditionPanic "Missing function definition")
  ∧ dumpFunctionName samplePack 40 = Abort OutOfRange.
Proof.
  destruct (unresolved_structure_stops 0 samplePack sampleFunction 40 1)
    as (Hblock & _ & Hdefinition & Hname).
  split; [|split]; [apply Hblock|apply Hdefinition|apply Hname];
    reflexivity.
Defined.

Lemma first_panic_is_the_outcome_witness :
  dumpBlock 2 samplePack2 sampleFunction 10 0
    = Abort (PreconditionPanic "Negative must be a unary operator").
Proof.
  apply (proj1 (first_panic_is_the_outcome 1 samplePack2
                  (PreconditionPanic "Negative must be a unary operator"))
           sampleFunction 10 0%Z [StatementRValue 1] (StatementRValue 7)
           [StatementRValue 1] ("(a + b);" +:+ LF));
    reflexivity.
Defined.

Lemma texts_in_order_witness :
  dumpBlock 2 samplePack sampleFunction 7 1
    = Ok (concatTexts ["case LITERAL:" +:+ LF; "  break;" +:+ LF]).
Proof.
  apply (proj1 (texts_in_order 1 samplePack) sampleFunction 7 1%Z
           [StatementBranch
              {| branch_op := Case;
                 branch_operand := Some (ValueRValue 3) |};
            StatementBranch
              {| branch_op := Break; branch_operand := None |}]);
    [reflexivity|repeat constructor].
Defined.

Lemma if_statement_text_witness :
  dumpBlock 3 samplePack sampleFunction 3 0
    = Ok ("" +:+ ("" +:+ "if (" +:+ "!(x)" +:+ ") {" +:+ LF
                  +:+ ("  return LITERAL;" +:+ LF) +:+ "" +:+ "" +:+ "}"
                  +:+ LF) +:+ "").
Proof.
  apply (if_statement_text 2 samplePack sampleFunction 3 0 [] []
           {| if_condition := ValueRValue 2; if_thenBlock := 2;
              if_elseBlock := None |}
           "" "" "!(x)" ("  return LITERAL;" +:+ LF) "");
    [reflexivity..|discriminate].
Defined.

Lemma switch_statement_text_witness :
  dumpBlock 3 samplePack sampleFunction 9 1
    = Ok (("  f((a + b), x);" +:+ LF)
          +:+ ("  " +:+ "switch (" +:+ "i" +:+ ") {" +:+ LF
               +:+ ("  case LITERAL:" +:+ LF +:+ "    break;" +:+ LF)
               +:+ "  " +:+ "}" +:+ LF)
          +:+ ("  for (; (i < n); i++) {" +:+ LF +:+ "  }" +:+ LF)).
Proof.
  apply (switch_statement_text 2 samplePack sampleFunction 9 1
           [StatementRValue 6] [StatementLoop sampleForLoop]
           {| switch_condition := ValueLocalSymbol 4; switch_body := 7 |}
           ("  f((a + b), x);" +:+ LF)
           ("  for (; (i < n); i++) {" +:+ LF +:+ "  }" +:+ LF)
           "i" ("  case LITERAL:" +:+ LF +:+ "    break;" +:+ LF));
    reflexivity.
Defined.

Lemma branch_statement_text_witness :
  dumpBlock 2 samplePack sampleFunction 2 1
    = Ok ("" +:+ ("  " +:+ "return" +:+ (" " +:+ "LITERAL") +:+ ";" +:+ LF)
          +:+ "").
Proof.
  apply (proj1 (branch_statement_text 1 samplePack sampleFunction 2 1 [] []
                  {| branch_op := Return;
                     branch_operand := Some (ValueRValue 3) |}
                  "" "" "LITERAL" eq_refl eq_refl eq_refl
                  ltac:(intros operand [= <-]; reflexivity))).
Defined.

Lemma statements_end_lines_witness :
  ("if (!(x)) {" +:+ LF +:+ "  return LITERAL;" +:+ LF +:+ "}" +:+ LF) = ""
  ∨ endsWithLF
      ("if (!(x)) {" +:+ LF +:+ "  return LITERAL;" +:+ LF +:+ "}" +:+ LF).
Proof.
  apply (statements_end_lines 3 samplePack sampleFunction 3 0). reflexivity.
Defined.

Lemma empty_function_text_witness :
  dumpFunction 1 samplePack2 2 true
    = Ok ("void main() {" +:+ LF +:+ "}" +:+ LF)
  ∧ dumpFunction 1 samplePack2 2 false = Ok ("void main();" +:+ LF).
Proof.
  apply (empty_function_text 0 samplePack2 2 sampleMain "void" "main(");
    reflexivity.
Defined.

Lemma parameters_not_redeclared_witness :
  dumpLocalDeclaration samplePack (parameterSymbolIdsOf sampleFunction)
    (1, {| localSymbol_type := 1; localSymbol_name := "a" |}) = Ok ""
  ∧ dumpLocalDeclaration samplePack (parameterSymbolIdsOf sampleFunction)
      (4, {| localSymbol_type := 2; localSymbol_name := "i" |})
    = Ok ("  highp int i;" +:+ LF).
Proof.
  split.
  - apply (proj1 (parameters_not_redeclared samplePack sampleFunction 1 _)).
    apply (bool_decide_unpack _). vm_compute. exact I.
  - apply (proj2 (parameters_not_redeclared samplePack sampleFunction 4
                    {| localSymbol_type := 2; localSymbol_name := "i" |}))
      with (type := {| type_name := "int"; type_precision := "highp";
                       type_arraySizes := [] |});
      [|reflexivity].
    apply (bool_decide_unpack _). vm_compute. exact I.
Defined.

Lemma parameter_type_not_read_witness :
  dumpParameters samplePack sampleFunction true
    [ {| parameter_name := 1; parameter_type := 1 |};
      {| parameter_name := 2; parameter_type := 1 |} ]
  = dumpParameters samplePack sampleFunction true
      [ {| parameter_name := 1; parameter_type := 2 |};
        {| parameter_name := 2; parameter_type := 40 |} ].
Proof. apply parameter_type_not_read. reflexivity. Defined.

Lemma insert_within_capacity_witness :
  (∃ c',
     CappedArray.insert 4 5%Z sampleArray = Some c'
     ∧ CappedArray.size c' = CappedArray.size sampleArray + 1
     ∧ CappedArray.wellFormed 4 c'
     ∧ CappedArray.at_ c' (CappedArray.size sampleArray) = Some 5%Z
     ∧ ∀ ind, ind ≠ CappedArray.size sampleArray →
         CappedArray.at_ c' ind = CappedArray.at_ sampleArray ind)
  ∧ CappedArray.insert 4 5%Z
      {| CappedArray.mArray := [1; 2; 3; 4]%Z; CappedArray.mInd := 4 |}
    = None.
Proof.
  split.
  - apply (insert_within_capacity 4 sampleArray 5%Z eq_refl). reflexivity.
  - apply (insert_within_capacity 4
             {| CappedArray.mArray := [1; 2; 3; 4]%Z; CappedArray.mInd := 4 |}
             5%Z eq_refl).
    discriminate.
Defined.

Lemma pop_back_after_insert_witness :
  ∃ c2,
    CappedArray.pop_back
      {| CappedArray.mArray := [1; 5; 3; 4]%Z; CappedArray.mInd := 2 |}
      = Some c2
    ∧ CappedArray.size c2 = CappedArray.size sampleArray
    ∧ (∀ ind, ind < CappedArray.size sampleArray →
         CappedArray.at_ c2 ind = CappedArray.at_ sampleArray ind)
    ∧ CappedArray.at_ c2 (CappedArray.size sampleArray) = Some 5%Z.
Proof.
  apply (pop_back_after_insert 4 sampleArray _ 5%Z eq_refl eq_refl).
Defined.

Lemma back_result_witness :
  is_Some (CappedArray.back sampleArray)
  ∧ CappedArray.back
      {| CappedArray.mArray := [1; 5; 3; 4]%Z; CappedArray.mInd := 1 |}
    = Some 5%Z.
Proof.
  destruct (back_result 4 sampleArray eq_refl) as [Hsome Hpopped]. split.
  - apply Hsome. split; reflexivity.
  - apply (Hpopped 5%Z
             {| CappedArray.mArray := [1; 5; 3; 4]%Z; CappedArray.mInd := 2 |});
      reflexivity.
Defined.

Lemma begin_end_range_witness :
  CappedArray.end_ 4 sampleArray - CappedArray.begin_ 4 sampleArray
    = CappedArray.size sampleArray
  ∧ CappedArray.begin_ 4 sampleArray = 0.
Proof.
  destruct (begin_end_range 4 sampleArray eq_refl ltac:(discriminate))
    as (Hlength & Hbegin & _).
  split; [exact Hlength|apply Hbegin; reflexivity].
Defined.

Lemma find_among_added_witness :
  (∀ j, j < CappedArray.size sampleArray →
     CappedArray.at_ sampleArray j ≠ Some 3%Z)
  ∧ CappedArray.at_ sampleArray 2 = Some 3%Z.
Proof.
  split; [|reflexivity].
  apply (proj2 (find_among_added 4 sampleArray 3%Z eq_refl
                  ltac:(discriminate))).
  reflexivity.
Defined.

Lemma symbol_reference_text_witness :
  dumpValue 0 samplePack sampleFunction (ValueGlobalSymbol 1)
    = Ok "gl_Position"
  ∧ dumpValue 0 samplePack sampleFunction (ValueLocalSymbol 1) = Ok "a"
  ∧ dumpLocalSymbol samplePack sampleFunction 1 true = Ok "float a".
Proof.
  destruct (symbol_reference_text 0 samplePack sampleFunction 1
              ltac:(discriminate)) as [Hglobal Hlocal].
  destruct (Hlocal {| localSymbol_type := 1; localSymbol_name := "a" |}
              eq_refl) as [Hname Htyped].
  split; [|split].
  - apply (Hglobal {| globalSymbol_name := "gl_Position" |}). reflexivity.
  - exact Hname.
  - apply (Htyped {| type_name := "float"; type_precision := "";
                     type_arraySizes := [] |}).
    reflexivity.
Defined.
